(** * Verification of the Cloudflare usage monitor core (cf2.py, cfpandw.py)

    The development embeds the polling engine of the two front ends:
    the account registry ([ConfigManager]), identifier resolution and the
    usage query ([CFAPIClient.get_account_id], [query_usage_single]), the
    aggregator ([update_all_accounts], [update_single_account]), the
    scheduler loop ([RefreshThread.run]) and the dual-backend persistence
    ([save_config], [load_config]).

    Python dictionaries with a fixed schema are records, dictionaries used
    as maps are [gmap]s, lists are lists.  Code that touches the registry,
    the clock or the network runs in a state-and-exception monad whose
    state carries the log of every outbound request.  The client code of
    cfpandw.py is that of cf2.py up to the request timeouts, which play
    no part here; its configuration manager keeps the JSON file only. *)

From Stdlib Require Import ZArith DecimalString DecimalPos DecimalZ.
From stdpp Require Import gmap strings list.

Local Open Scope string_scope.
Local Open Scope Z_scope.

(** ** Constants of the source *)

Definition DEFAULT_REQUEST_LIMIT : Z := 200000.
Definition MAX_WORKERS : nat := 5.
Definition CACHE_EXPIRE_HOURS : Z := 24.

(** Time is counted in microseconds, the resolution of [datetime]. *)
Definition MICROS_PER_SECOND : Z := 1000000.

(** ** Data model *)

(** One entry of [config["accounts"]]. *)
Record Account := mkAccount {
  name : string;
  email : string;
  key : string;
  api_token : string;
  account_id : string;
  account_id_cache : string;
  cache_update_time : string
}.

(** [config["proxy"]]. *)
Record ProxyConfig := mkProxy {
  enable : bool;
  ptype : string;
  host : string;
  port : string;
  username : string;
  password : string
}.

(** The ["data"] part of a query result: either the usage numbers (with
    ["error": ""]) or a dictionary holding only ["error"]. *)
Inductive UsageData :=
| UsageOk (requests pages workers : Z) (resolved_id : string)
| UsageError (error : string).

(** The dictionary [{"name": ..., "data": ...}] returned by a query. *)
Record QueryResult := mkResult {
  res_name : string;
  res_data : UsageData
}.

(** Python exceptions that the core raises or catches; [str_exn] is
    [str(e)]. *)
Inductive exn :=
| Exception (msg : string)
| StopIteration.

Definition str_exn (e : exn) : string :=
  match e with
  | Exception msg => msg
  | StopIteration => ""
  end.

(** A [datetime] value: naive (local wall clock) or timezone-aware. *)
Record datetime := mkDatetime {
  dt_micros : Z;
  dt_aware : bool
}.

(** Request headers, in insertion order. *)
Definition Headers := list (string * string).

(** The [proxies] argument of [requests]: both schemes get one URL. *)
Record Proxies := mkProxies {
  proxies_http : string;
  proxies_https : string
}.

(** Outbound calls. *)
Inductive Request :=
| GetAccounts (headers : Headers) (proxies : option Proxies)
| PostGraphql (headers : Headers) (account_tag : string)
              (datetime_geq datetime_leq : string) (proxies : option Proxies).

(** Observable effects of the core, oldest first. *)
Inductive Event :=
| EvRequest (r : Request)
| EvSaveConfig.

(** Decoded body of [GET /accounts]. *)
Record RemoteAccount := mkRemote {
  remote_id : string;
  remote_name : string
}.

Record AccountsEnvelope := mkEnvelope {
  env_success : bool;
  env_result : list RemoteAccount
}.

(** Decoded body of [POST /graphql]: the messages of ["errors"] and, for
    each account in scope, the per-bucket request sums of both
    categories. *)
Record AccountUsage := mkUsage {
  pages_groups : list Z;
  workers_groups : list Z
}.

Record GraphqlResult := mkGraphql {
  gql_errors : list string;
  gql_accounts : list AccountUsage
}.

(** The state the client works on: the registry, proxy settings and
    refresh interval held by the configuration manager, the shared
    snapshot with its timestamps, both clocks, and the effect log. *)
Record Client := mkClient {
  accounts : list Account;
  proxy : ProxyConfig;
  refresh_interval : Z;
  data : gmap string UsageData;
  last_update : gmap string Z;
  clock_local : Z;
  clock_utc : Z;
  log : list Event
}.

Definition set_accounts (l : list Account) (c : Client) : Client :=
  mkClient l (proxy c) (refresh_interval c) (data c) (last_update c) (clock_local c) (clock_utc c) (log c).

Definition set_snapshot (d : gmap string UsageData) (t : gmap string Z) (c : Client) : Client :=
  mkClient (accounts c) (proxy c) (refresh_interval c) d t (clock_local c) (clock_utc c) (log c).

Definition emit (e : Event) (c : Client) : Client :=
  mkClient (accounts c) (proxy c) (refresh_interval c) (data c) (last_update c) (clock_local c) (clock_utc c)
           (log c ++ [e])%list.

(** Truth value of a Python string. *)
Definition truthy (s : string) : bool := negb (String.eqb s "").

(** ** The state-and-exception monad of the client *)

Definition M (A : Type) : Type := Client → (exn + A) * Client.

Definition ret {A} (x : A) : M A := λ c, (inr x, c).

Definition bind {A B} (m : M A) (k : A → M B) : M B :=
  λ c, match m c with
       | (inl e, c') => (inl e, c')
       | (inr x, c') => k x c'
       end.

Definition raise {A} (e : exn) : M A := λ c, (inl e, c).

(** [try: m except Exception as e: h e]. *)
Definition try_except {A} (m : M A) (h : exn → M A) : M A :=
  λ c, match m c with
       | (inl e, c') => h e c'
       | (inr x, c') => (inr x, c')
       end.

Definition get_client : M Client := λ c, (inr c, c).
Definition modify_client (f : Client → Client) : M unit := λ c, (inr tt, f c).

Notation "'do' x <- m ; k" := (bind m (λ x, k))
  (at level 10, x name, m at level 100, k at level 200).


(** ** Library functions and the remote API

    [datetime.fromisoformat] ([None] when it raises), [isoformat],
    [str.lower], and the two remote endpoints.  An endpoint answers from
    the effects logged so far and the request; [inl e] is any exception
    of the call, of [raise_for_status] or of decoding the body. *)
Class Platform := {
  fromisoformat : string → option datetime;
  isoformat : datetime → string;
  lower : string → string;
  requests_get : list Event → Request → exn + AccountsEnvelope;
  requests_post : list Event → Request → exn + GraphqlResult
}.

(** Index of the first element satisfying [p]:
    [next(i for i, x in enumerate(l) if p(x))], [None] when exhausted. *)
Fixpoint index_where {A} (p : A → bool) (l : list A) : option nat :=
  match l with
  | [] => None
  | x :: l' => if p x then Some 0%nat else S <$> index_where p l'
  end.

(** [next(x for x in l if p(x), None)]. *)
Fixpoint first_where {A} (p : A → bool) (l : list A) : option A :=
  match l with
  | [] => None
  | x :: l' => if p x then Some x else first_where p l'
  end.

Definition sum_requests (groups : list Z) : Z := foldr Z.add 0 groups.

(** ** ConfigManager: registry operations *)

Definition get_accounts : M (list Account) := λ c, (inr (accounts c), c).

(** [threading.Thread(target=self.save_config).start()] and the
    synchronous [self.save_config()] both leave a save in the log. *)
Definition save_config_effect : M unit := modify_client (emit EvSaveConfig).

Definition set_cache (id time : string) (a : Account) : Account :=
  mkAccount (name a) (email a) (key a) (api_token a) (account_id a) id time.

Definition update_account_cache `{Platform} (index : nat) (id : string) : M unit :=
  do c <- get_client;
  do _ <- modify_client
       (set_accounts
          (alter (set_cache id (isoformat (mkDatetime (clock_local c) false)))
                 index (accounts c)));
  save_config_effect.

Definition add_account (account_info : Account) : M unit :=
  do c <- get_client;
  do _ <- modify_client (set_accounts (accounts c ++ [set_cache "" "" account_info])%list);
  save_config_effect.

Definition update_account (index : nat) (account_info : Account) : M unit :=
  do c <- get_client;
  match accounts c !! index with
  | Some old_info =>
      do _ <- modify_client
           (set_accounts
              (<[index := set_cache (account_id_cache old_info)
                                    (cache_update_time old_info) account_info]>
                 (accounts c)));
      save_config_effect
  | None => ret tt
  end.

Definition delete_account (index : nat) : M unit :=
  do c <- get_client;
  if bool_decide (index < length (accounts c))%nat then
    do _ <- modify_client (set_accounts (delete index (accounts c)));
    save_config_effect
  else ret tt.

(** ** MainWindow.on_accounts_order_changed (cf2.py)

    [items] are the texts of the list widget after the move, top to
    bottom.  Each text is looked up in the registry, first match wins,
    texts without a match are skipped; the registry is replaced and
    saved unless nothing was found. *)
Definition on_accounts_order_changed (items : list string) : M unit :=
  do accs <- get_accounts;
  let ordered_accounts :=
    omap (λ account_name,
            first_where (λ account, String.eqb (name account) account_name) accs)
         items in
  if bool_decide (ordered_accounts = []) then ret tt
  else
    do _ <- modify_client (set_accounts ordered_accounts);
    save_config_effect.

(** ** CFAPIClient *)

Definition get_proxies (proxy_config : ProxyConfig) : option Proxies :=
  if negb (enable proxy_config) then None
  else if negb (truthy (host proxy_config)) || negb (truthy (port proxy_config)) then None
  else
    let proxy_url :=
      if truthy (username proxy_config) && truthy (password proxy_config)
      then ptype proxy_config +:+ "://" +:+ username proxy_config +:+ ":"
           +:+ password proxy_config +:+ "@" +:+ host proxy_config +:+ ":"
           +:+ port proxy_config
      else ptype proxy_config +:+ "://" +:+ host proxy_config +:+ ":"
           +:+ port proxy_config in
    Some (mkProxies proxy_url proxy_url).

(** The header dictionary both calls build. *)
Definition build_headers (email key api_token : string) : Headers :=
  let headers := [("Content-Type", "application/json")] in
  if truthy api_token
  then (headers ++ [("Authorization", "Bearer " +:+ api_token)])%list
  else (headers ++ [("X-AUTH-EMAIL", email); ("X-AUTH-KEY", key)])%list.

(** The cache test at the head of [get_account_id]: [Some cache_id] when
    the function returns from the cache.  A timestamp that does not
    parse raises inside the [try], and so does subtracting an aware
    timestamp from the naive [now()]; both are swallowed.  The age
    [total_seconds()] is compared as a count of microseconds. *)
Definition cached_identifier `{Platform} (now : Z) (cache_id cache_time : string)
  : option string :=
  if truthy cache_id then
    if truthy cache_time then
      match fromisoformat cache_time with
      | Some cache_dt =>
          if dt_aware cache_dt then None
          else if now - dt_micros cache_dt
                  <? CACHE_EXPIRE_HOURS * 3600 * MICROS_PER_SECOND
               then Some cache_id
               else None
      | None => None
      end
    else None
  else None.

(** One outbound call: logged, then answered by the endpoint. *)
Definition call_get `{Platform} (req : Request) : M AccountsEnvelope :=
  λ c, (requests_get (log c) req, emit (EvRequest req) c).

Definition call_post `{Platform} (req : Request) : M GraphqlResult :=
  λ c, (requests_post (log c) req, emit (EvRequest req) c).

Definition get_account_id `{Platform} (email key api_token cache_id cache_time : string)
  : M string :=
  do c <- get_client;
  match cached_identifier (clock_local c) cache_id cache_time with
  | Some id => ret id
  | None =>
      let headers := build_headers email key api_token in
      try_except
        (do resp <- call_get (GetAccounts headers (get_proxies (proxy c)));
         if negb (env_success resp) || bool_decide (env_result resp = [])
         then raise (Exception "未获取到账户信息")
         else
           let idx :=
             default 0%nat
               (index_where (λ acc, String.prefix (lower email) (lower (remote_name acc)))
                            (env_result resp)) in
           match env_result resp !! idx with
           | Some acc => ret (remote_id acc)
           | None => raise (Exception "list index out of range")
           end)
        (λ e, raise (Exception ("获取Account ID失败: " +:+ str_exn e)))
  end.

(** The first [try] block of [query_usage_single]: the identifier to
    query with, or the result the [except] clause returns.  The index
    lookup is a [next] without default, so it raises [StopIteration]
    when no registry entry carries the name. *)
Definition resolve_identifier `{Platform} (account_info : Account)
  : M (QueryResult + string) :=
  let account_name := name account_info in
  try_except
    (if negb (truthy (account_id account_info)) then
       do id <- get_account_id (email account_info) (key account_info)
                  (api_token account_info) (account_id_cache account_info)
                  (cache_update_time account_info);
       do accs <- get_accounts;
       match index_where (λ acc, String.eqb (name acc) account_name) accs with
       | Some acc_index =>
           do _ <- update_account_cache acc_index id;
           ret (inr id)
       | None => raise StopIteration
       end
     else ret (inr (account_id account_info)))
    (λ e, ret (inl (mkResult account_name (UsageError (str_exn e))))).

Definition MICROS_PER_DAY : Z := 86400 * MICROS_PER_SECOND.

(** The second [try] block: the aggregation query and its decoding. *)
Definition query_usage `{Platform} (account_info : Account) (id : string)
  : M QueryResult :=
  let account_name := name account_info in
  let headers := build_headers (email account_info) (key account_info)
                               (api_token account_info) in
  do c <- get_client;
  let now := mkDatetime (clock_utc c) true in
  let today := mkDatetime (clock_utc c - clock_utc c `mod` MICROS_PER_DAY) true in
  try_except
    (do result <- call_post (PostGraphql headers id (isoformat today) (isoformat now)
                                         (get_proxies (proxy c)));
     match gql_errors result with
     | message :: _ => raise (Exception ("GraphQL错误: " +:+ message))
     | [] =>
         match gql_accounts result with
         | [] => raise (Exception "未获取到账户使用数据")
         | acc :: _ =>
             let pages := sum_requests (pages_groups acc) in
             let workers := sum_requests (workers_groups acc) in
             let total := pages + workers in
             ret (mkResult account_name (UsageOk total pages workers id))
         end
     end)
    (λ e, ret (mkResult account_name (UsageError (str_exn e)))).

Definition query_usage_single `{Platform} (account_info : Account) : M QueryResult :=
  let account_name := name account_info in
  if negb (truthy (email account_info) && truthy (key account_info))
     && negb (truthy (api_token account_info))
  then ret (mkResult account_name (UsageError "未配置CF凭证（邮箱+Key或API Token）"))
  else
    do r <- resolve_identifier account_info;
    match r with
    | inl failed => ret failed
    | inr id => query_usage account_info id
    end.

(** [update_single_account]: the dictionary it returns holds at most one
    entry. *)
Definition update_single_account `{Platform} (account_name : string)
  : M (gmap string UsageData) :=
  do accs <- get_accounts;
  match first_where (λ acc, String.eqb (name acc) account_name) accs with
  | None => ret ∅
  | Some account_info =>
      try_except
        (do result <- query_usage_single account_info;
         do c <- get_client;
         do _ <- modify_client
              (set_snapshot (<[res_name result := res_data result]> (data c))
                            (<[res_name result := clock_local c]> (last_update c)));
         ret {[ res_name result := res_data result ]})
        (λ e, ret {[ account_name := UsageError (str_exn e) ]})
  end.

(** ** The full refresh as a transition system

    [update_all_accounts] hands every account to the pool, gathers the
    futures as they complete, and then, inside [self.mutex], clears the
    snapshot, inserts the results and stamps their names; the copy it
    returns is taken after the lock is released.  Nothing but
    [update_all_accounts] and [update_single_account] takes that lock,
    and the two never run at the same time: the loop of the refreshing
    thread calls one or the other, and [refresh_data] calls the former
    itself only when that thread is not running.  The interface thread
    edits the registry and reads the snapshot without the lock.  A
    state pairs the position of the refresh with the client, and every
    statement of the commit is a move of its own, so that the states
    between them are states a reader can meet.

    A query is one move.  It works on the account dictionary as read at
    submission and runs when its future is gathered, so its look at the
    registry, for the cache write-back, comes after every edit that
    precedes the move.  The size of the pool bounds how many queries are
    in flight, not what they return, and does not appear. *)
Inductive Phase :=
| Idle
| Collecting (pending : list Account) (results : gmap string UsageData) (current_time : Z)
| Locked (results : gmap string UsageData) (current_time : Z)
| Cleared (results : gmap string UsageData) (current_time : Z)
| Stamping (todo : gset string) (results : gmap string UsageData) (current_time : Z)
| Released (results : gmap string UsageData) (current_time : Z)
| Returned (copy : gmap string UsageData).

Inductive Action :=
| ActBegin
| ActComplete (k : nat)
| ActLock
| ActClear
| ActInsert
| ActStamp (key : string)
| ActUnlock
| ActReturn
| ActDelete (index : nat)
| ActAdd (account_info : Account)
| ActEdit (index : nat) (account_info : Account)
| ActReorder (items : list string).

(** What the interface thread can do to the registry while a refresh
    is in flight: [MainWindow.delete_account], [add_account] and
    [edit_account] call the configuration manager, a drag in the list
    calls [on_accounts_order_changed]. *)
Definition ui_edit (a : Action) : option (M unit) :=
  match a with
  | ActDelete index => Some (delete_account index)
  | ActAdd account_info => Some (add_account account_info)
  | ActEdit index account_info => Some (update_account index account_info)
  | ActReorder items => Some (on_accounts_order_changed items)
  | _ => None
  end.

(** The moves of the refreshing thread:
    - [ActBegin]: read the registry; return [{}] at once when it is
      empty, else submit one query per account and read the clock.
    - [ActComplete k]: the [k]-th outstanding future runs and is
      yielded by [as_completed]; a future that raised is skipped.
    - [ActLock]: all futures are in; enter [with QMutexLocker].
    - [ActClear]: [self.data.clear()].
    - [ActInsert]: [self.data.update(results)].
    - [ActStamp key]: one round of [for name in results].  The loop
      follows the insertion order of the dictionary, which the mapping
      does not record: the schedule names the key stamped next, so every
      order is covered.
    - [ActUnlock]: the loop is through; leave the [with] block.
    - [ActReturn]: [return self.data.copy()]. *)
Definition refresh_step `{Platform} (a : Action) (s : Phase * Client)
  : option (Phase * Client) :=
  match a, s with
  | ActBegin, (Idle, c) =>
      if bool_decide (accounts c = []) then Some (Returned ∅, c)
      else Some (Collecting (accounts c) ∅ (clock_local c), c)
  | ActComplete k, (Collecting pending results current_time, c) =>
      match pending !! k with
      | Some account =>
          let '(r, c') := query_usage_single account c in
          let results' :=
            match r with
            | inr result => <[res_name result := res_data result]> results
            | inl _ => results
            end in
          Some (Collecting (delete k pending) results' current_time, c')
      | None => None
      end
  | ActLock, (Collecting [] results current_time, c) =>
      Some (Locked results current_time, c)
  | ActClear, (Locked results current_time, c) =>
      Some (Cleared results current_time, set_snapshot ∅ (last_update c) c)
  | ActInsert, (Cleared results current_time, c) =>
      Some (Stamping (dom results) results current_time,
            set_snapshot (results ∪ data c) (last_update c) c)
  | ActStamp key, (Stamping todo results current_time, c) =>
      if bool_decide (key ∈ todo) then
        Some (Stamping (todo ∖ {[key]}) results current_time,
              set_snapshot (data c) (<[key := current_time]> (last_update c)) c)
      else None
  | ActUnlock, (Stamping todo results current_time, c) =>
      if bool_decide (todo = ∅) then Some (Released results current_time, c) else None
  | ActReturn, (Released results current_time, c) => Some (Returned (data c), c)
  | _, _ => None
  end.

(** One move of either thread. *)
Definition step `{Platform} (a : Action) (s : Phase * Client) : option (Phase * Client) :=
  match ui_edit a with
  | Some edit => Some (s.1, (edit s.2).2)
  | None => refresh_step a s
  end.

Fixpoint execute `{Platform} (sched : list Action) (s : Phase * Client)
  : option (Phase * Client) :=
  match sched with
  | [] => Some s
  | a :: sched' =>
      match step a s with
      | Some s' => execute sched' s'
      | None => None
      end
  end.

(** [update_all_accounts]: one call, run to its [return] under the
    interleaving [sched] of its own moves and the edits of the
    interface thread; the mapping returned and the client left behind.
    [None] when [sched] is not an execution of the call. *)
Definition update_all_accounts `{Platform} (sched : list Action) (c : Client)
  : option (gmap string UsageData * Client) :=
  match execute (ActBegin :: sched) (Idle, c) with
  | Some (Returned copy, c') => Some (copy, c')
  | _ => None
  end.

(** The statements after the last future, stamping [keys] in the order
    [elements] lists them; any order that names each key once runs the
    same way. *)
Definition commit (keys : gset string) : list Action :=
  [ActLock; ActClear; ActInsert] ++ (ActStamp <$> elements keys) ++ [ActUnlock; ActReturn].

Definition names (l : list Account) : gset string := list_to_set (name <$> l).

(** The schedule in which nothing interferes and the futures complete in
    submission order. *)
Definition in_order (l : list Account) : list Action :=
  match l with
  | [] => []
  | _ => replicate (length l) (ActComplete 0) ++ commit (names l)
  end.

Definition is_complete (a : Action) : bool :=
  match a with ActComplete _ => true | _ => false end.

(** Number of futures gathered along a schedule. *)
Fixpoint completions (sched : list Action) : nat :=
  match sched with
  | [] => 0%nat
  | a :: sched' => ((if is_complete a then 1 else 0) + completions sched')%nat
  end.

(** ** RefreshThread

    The loop thread is at the head of its [while], or inside the
    segmented wait with some polls left, or has left the loop. *)
Inductive Loc :=
| LoopHead
| Waiting (remaining : nat)
| Exited.

Inductive Signal :=
| UpdateSignal (d : gmap string UsageData)
| SingleUpdateSignal (account_name : string) (d : option UsageData)
| ErrorSignal (msg : string).

Record Thread := mkThread {
  loc : Loc;
  is_running : bool;
  target_account : option string;
  cf_client : Client;
  signals : list Signal;
  sleeps : nat
}.

(** Truth value of [self.target_account]: [None] and [""] are false. *)
Definition pending_target (t : Thread) : option string :=
  match target_account t with
  | Some account_name => if truthy account_name then Some account_name else None
  | None => None
  end.

Definition refresh_single_account (account_name : string) (t : Thread) : Thread :=
  mkThread (loc t) (is_running t) (Some account_name) (cf_client t) (signals t) (sleeps t).

(** The flag part of [stop]; the join that follows only waits. *)
Definition stop (t : Thread) : Thread :=
  mkThread (loc t) false (target_account t) (cf_client t) (signals t) (sleeps t).

Definition polls_of (interval : Z) : nat := Z.to_nat (interval * 2).

(** [RefreshThread.run], one move of the loop thread at a time.  At the
    loop head it runs the body up to the wait; [sched] is the
    interleaving under which a full refresh runs.  Inside the wait it
    performs one round of the [for]: the test, then either [break] or
    [msleep(500)]. *)
Definition run `{Platform} (sched : list Action) (t : Thread) : option Thread :=
  match loc t with
  | Exited => None
  | LoopHead =>
      if negb (is_running t) then
        Some (mkThread Exited (is_running t) (target_account t) (cf_client t)
                       (signals t) (sleeps t))
      else
        match pending_target t with
        | Some account_name =>
            match update_single_account account_name (cf_client t) with
            | (inr d, c') =>
                Some (mkThread (Waiting (polls_of (refresh_interval c'))) (is_running t) None c'
                        (signals t ++ [SingleUpdateSignal account_name (d !! account_name)])
                        (sleeps t))
            | (inl e, c') =>
                Some (mkThread LoopHead (is_running t) (target_account t) c'
                        (signals t ++ [ErrorSignal ("刷新失败: " +:+ str_exn e)]) (sleeps t))
            end
        | None =>
            match update_all_accounts sched (cf_client t) with
            | Some (d, c') =>
                Some (mkThread (Waiting (polls_of (refresh_interval c'))) (is_running t)
                        (target_account t) c' (signals t ++ [UpdateSignal d]) (sleeps t))
            | None => None
            end
        end
  | Waiting 0 =>
      Some (mkThread LoopHead (is_running t) (target_account t) (cf_client t)
                     (signals t) (sleeps t))
  | Waiting (S remaining) =>
      if negb (is_running t) || bool_decide (is_Some (pending_target t)) then
        Some (mkThread LoopHead (is_running t) (target_account t) (cf_client t)
                       (signals t) (sleeps t))
      else
        Some (mkThread (Waiting remaining) (is_running t) (target_account t) (cf_client t)
                       (signals t) (S (sleeps t)))
  end.

(** ** Persistence (cf2.py): SQLite store and JSON mirror *)
Module Persistence.

(** [self.config]. *)
Record Config := mkConfig {
  cfg_accounts : list Account;
  cfg_proxy : ProxyConfig;
  cfg_refresh_interval : Z;
  cfg_request_limit : Z
}.

Definition default_config : Config :=
  mkConfig [] (mkProxy false "http" "" "" "" "") 300 DEFAULT_REQUEST_LIMIT.

(** A [value] cell of table [config]: plain text, or the text
    [json.dumps] gives for a proxy dictionary, kept as the dictionary
    that [json.loads] gives back. *)
Inductive Cell :=
| CText (s : string)
| CJson (p : ProxyConfig).

(** A row of table [accounts]; every column but [name] may be NULL. *)
Record Row := mkRow {
  r_name : string;
  r_email : option string;
  r_key : option string;
  r_api_token : option string;
  r_account_id : option string;
  r_account_id_cache : option string;
  r_cache_update_time : option string
}.

(** Table [config] is keyed by its primary key; table [accounts] is
    kept in rowid order, which is the order of a full scan. *)
Record Database := mkDatabase {
  config_table : gmap string Cell;
  accounts_table : list Row
}.

(** What [json.load] finds in the mirror: the keys present in the
    document. *)
Record JsonDoc := mkDoc {
  doc_accounts : option (list Account);
  doc_proxy : option ProxyConfig;
  doc_refresh_interval : option Z;
  doc_request_limit : option Z
}.

Inductive JsonFile :=
| NoFile
| Corrupt
| Doc (d : JsonDoc).

(** [db] is [None] when the connection could not be opened. *)
Record Storage := mkStorage {
  db : option Database;
  json_file : JsonFile
}.

(** [str] on an integer, in decimal. *)
Definition str_of_int (z : Z) : string := NilZero.string_of_int (Z.to_int z).

(** [int] on a text, for texts of ASCII characters ([ascii_text]):
    blanks around the number are skipped, a sign may lead, digits
    follow, single underscores may stand between digits; [None] is the
    [ValueError].  Blanks and digits beyond ASCII, which [int] reads as
    well, and the length limit some interpreters put on the conversion
    are not modelled. *)
Definition ascii_text (s : string) : bool :=
  forallb (λ ch, (Ascii.nat_of_ascii ch <? 128)%nat) (String.list_ascii_of_string s).

(** Space, tab, line feed, vertical tab, form feed, carriage return. *)
Definition is_blank (ch : Ascii.ascii) : bool :=
  existsb (Nat.eqb (Ascii.nat_of_ascii ch)) [32; 9; 10; 11; 12; 13]%nat.

Definition is_digit (ch : Ascii.ascii) : bool :=
  (48 <=? Ascii.nat_of_ascii ch)%nat && (Ascii.nat_of_ascii ch <=? 57)%nat.

Definition is_char (code : nat) (ch : Ascii.ascii) : bool :=
  (Ascii.nat_of_ascii ch =? code)%nat.

Fixpoint lstrip (s : string) : string :=
  match s with
  | String ch s' => if is_blank ch then lstrip s' else s
  | EmptyString => EmptyString
  end.

Fixpoint rstrip (s : string) : string :=
  match s with
  | EmptyString => EmptyString
  | String ch s' =>
      match rstrip s' with
      | EmptyString => if is_blank ch then EmptyString else String ch EmptyString
      | rest => String ch rest
      end
  end.

(** The digits of a number with its underscores taken out; [prev]
    tells whether the character before was a digit.  An underscore
    needs a digit on either side. *)
Fixpoint digits_of (prev : bool) (s : string) : option string :=
  match s with
  | EmptyString => if prev then Some EmptyString else None
  | String ch s' =>
      if is_digit ch then String ch <$> digits_of true s'
      else if is_char 95 ch then (if prev then digits_of false s' else None)
      else None
  end.

Definition magnitude (s : string) : option Z :=
  ds ← digits_of false s; Z.of_uint <$> NilEmpty.uint_of_string ds.

(** 43 is the plus sign, 45 the minus sign. *)
Definition int_of_str (s : string) : option Z :=
  match rstrip (lstrip s) with
  | String ch rest =>
      if is_char 43 ch then magnitude rest
      else if is_char 45 ch then Z.opp <$> magnitude rest
      else magnitude (String ch rest)
  | EmptyString => None
  end.

Definition row_of_account (acc : Account) : Row :=
  mkRow (name acc) (Some (email acc)) (Some (key acc)) (Some (api_token acc))
        (Some (account_id acc)) (Some (account_id_cache acc))
        (Some (cache_update_time acc)).

(** [x or '']. *)
Definition or_empty (x : option string) : string :=
  match x with
  | Some s => if truthy s then s else ""
  | None => ""
  end.

Definition account_of_row (r : Row) : Account :=
  mkAccount (r_name r) (or_empty (r_email r)) (or_empty (r_key r))
            (or_empty (r_api_token r)) (or_empty (r_account_id r))
            (or_empty (r_account_id_cache r)) (or_empty (r_cache_update_time r)).

Definition has_name (n : string) (tbl : list Row) : bool :=
  existsb (λ r, String.eqb (r_name r) n) tbl.

(** [executemany('INSERT INTO accounts ...')] without a transaction:
    rows go in one by one until a name repeats; [inl] carries the
    table at the moment of the integrity error. *)
Fixpoint insert_rows (rows : list Row) (tbl : list Row) : list Row + list Row :=
  match rows with
  | [] => inr tbl
  | r :: rows' =>
      if has_name (r_name r) tbl then inl tbl
      else insert_rows rows' (tbl ++ [r])
  end.

(** [INSERT OR REPLACE]: a row with the same name is removed first. *)
Definition insert_or_replace (r : Row) (tbl : list Row) : list Row :=
  filter (λ r', r_name r' ≠ r_name r) tbl ++ [r].

Definition config_rows (cfg : Config) : gmap string Cell :=
  <["request_limit" := CText (str_of_int (cfg_request_limit cfg))]>
    (<["refresh_interval" := CText (str_of_int (cfg_refresh_interval cfg))]>
       (<["proxy" := CJson (cfg_proxy cfg)]> ∅)).

Definition doc_of_config (cfg : Config) : JsonDoc :=
  mkDoc (Some (cfg_accounts cfg)) (Some (cfg_proxy cfg))
        (Some (cfg_refresh_interval cfg)) (Some (cfg_request_limit cfg)).

(** The detached [save_json] thread: [written] tells whether its
    write has reached the file; a failure is swallowed. *)
Definition write_mirror (cfg : Config) (written : bool) (st : Storage) : Storage :=
  if written then mkStorage (db st) (Doc (doc_of_config cfg)) else st.

Definition save_config (cfg : Config) (written : bool) (st : Storage) : Storage :=
  match db st with
  | Some _ =>
      match insert_rows (row_of_account <$> cfg_accounts cfg) [] with
      | inr tbl =>
          write_mirror cfg written
            (mkStorage (Some (mkDatabase (config_rows cfg) tbl)) (json_file st))
      | inl tbl =>
          mkStorage (Some (mkDatabase (config_rows cfg) tbl)) (json_file st)
      end
  | None => write_mirror cfg written st
  end.

Definition migrate_to_db (cfg : Config) (st : Storage) : Storage :=
  match db st with
  | Some _ =>
      mkStorage
        (Some (mkDatabase (config_rows cfg)
                 (foldl (λ tbl acc, insert_or_replace (row_of_account acc) tbl) []
                        (cfg_accounts cfg))))
        (json_file st)
  | None => st
  end.

(** [self.config.update(loaded)]. *)
Definition update_from_doc (d : JsonDoc) (cfg : Config) : Config :=
  mkConfig (default (cfg_accounts cfg) (doc_accounts d))
           (default (cfg_proxy cfg) (doc_proxy d))
           (default (cfg_refresh_interval cfg) (doc_refresh_interval d))
           (default (cfg_request_limit cfg) (doc_request_limit d)).

(** The assignments of [load_config] that read table [config]; [None]
    when the statement raises.  A cell that is not the text of a proxy
    dictionary makes [json.loads] raise, or yields a value that is no
    dictionary; [read_proxy] takes both as the raise. *)
Definition read_proxy (tbl : gmap string Cell) (cfg : Config) : option Config :=
  match tbl !! "proxy" with
  | Some (CJson p) =>
      Some (mkConfig (cfg_accounts cfg) p (cfg_refresh_interval cfg) (cfg_request_limit cfg))
  | Some (CText _) => None
  | None => Some cfg
  end.

Definition cell_int (c : Cell) : option Z :=
  match c with
  | CText s => int_of_str s
  | CJson _ => None
  end.

Definition read_refresh_interval (tbl : gmap string Cell) (cfg : Config) : option Config :=
  match tbl !! "refresh_interval" with
  | Some c =>
      z ← cell_int c;
      Some (mkConfig (cfg_accounts cfg) (cfg_proxy cfg) z (cfg_request_limit cfg))
  | None => Some cfg
  end.

Definition read_request_limit (tbl : gmap string Cell) (cfg : Config) : option Config :=
  match tbl !! "request_limit" with
  | Some c =>
      z ← cell_int c;
      Some (mkConfig (cfg_accounts cfg) (cfg_proxy cfg) (cfg_refresh_interval cfg) z)
  | None => Some cfg
  end.

Definition read_accounts (tbl : list Row) (cfg : Config) : option Config :=
  Some (mkConfig (account_of_row <$> tbl) (cfg_proxy cfg)
                 (cfg_refresh_interval cfg) (cfg_request_limit cfg)).

(** Statements run in order on the dictionary, which keeps what was
    assigned before one of them raises; the flag tells whether all
    went through. *)
Fixpoint run_statements (stmts : list (Config → option Config)) (cfg : Config)
  : Config * bool :=
  match stmts with
  | [] => (cfg, true)
  | stmt :: stmts' =>
      match stmt cfg with
      | Some cfg' => run_statements stmts' cfg'
      | None => (cfg, false)
      end
  end.

Definition db_statements (d : Database) : list (Config → option Config) :=
  (if bool_decide (config_table d = ∅) then []
   else [read_proxy (config_table d); read_refresh_interval (config_table d);
         read_request_limit (config_table d)])
  ++ [read_accounts (accounts_table d)].

(** The [except] clause of [load_config]: the mirror is tried once
    more and any failure passes. *)
Definition load_backup (cfg : Config) (st : Storage) : Config * Storage :=
  match json_file st with
  | Doc d => (update_from_doc d cfg, st)
  | _ => (cfg, st)
  end.

Definition load_config (cfg0 : Config) (st : Storage) : Config * Storage :=
  let '(cfg, ok) :=
    match db st with
    | Some d => run_statements (db_statements d) cfg0
    | None => (cfg0, true)
    end in
  if ok then
    if bool_decide (cfg_accounts cfg = []) then
      match json_file st with
      | NoFile => (cfg, st)
      | Doc d =>
          let cfg' := update_from_doc d cfg in
          (cfg', migrate_to_db cfg' st)
      | Corrupt => load_backup cfg st
      end
    else (cfg, st)
  else load_backup cfg st.

End Persistence.

(** ** Vocabulary of the statements *)

Definition request_headers (r : Request) : Headers :=
  match r with
  | GetAccounts headers _ => headers
  | PostGraphql headers _ _ _ _ => headers
  end.

(** The lifetime of a cached identifier, in microseconds. *)
Definition TTL_MICROS : Z := CACHE_EXPIRE_HOURS * 3600 * MICROS_PER_SECOND.

(** Every request among the events carries the headers [hs]. *)
Definition sent_with (hs : Headers) (e : Event) : Prop :=
  match e with
  | EvRequest r => request_headers r = hs
  | EvSaveConfig => True
  end.

(** What a query may change: it appends events to the log, all its
    requests carrying [hs], and it rewrites cache fields of registry
    entries; snapshot, clocks and settings stay. *)
Definition extends (hs : Headers) (c c' : Client) : Prop :=
  data c' = data c ∧ last_update c' = last_update c
  ∧ clock_local c' = clock_local c ∧ clock_utc c' = clock_utc c
  ∧ proxy c' = proxy c ∧ refresh_interval c' = refresh_interval c
  ∧ name <$> accounts c' = name <$> accounts c
  ∧ ∃ evs, log c' = (log c ++ evs)%list ∧ Forall (sent_with hs) evs.

(** The header list of token mode. *)
Definition bearer_headers (token : string) : Headers :=
  [("Content-Type", "application/json"); ("Authorization", "Bearer " +:+ token)].


(** The guard at the head of [query_usage_single] lets the account
    through. *)
Definition has_credentials (a : Account) : bool :=
  (truthy (email a) && truthy (key a)) || truthy (api_token a).

(** The moves of [step] as a relation, one rule per way the code can
    go; a completed future always holds a result. *)
Inductive step_rel `{Platform} : Action → Phase * Client → Phase * Client → Prop :=
| step_begin_empty c :
    accounts c = [] →
    step_rel ActBegin (Idle, c) (Returned ∅, c)
| step_begin c :
    accounts c ≠ [] →
    step_rel ActBegin (Idle, c) (Collecting (accounts c) ∅ (clock_local c), c)
| step_complete k pending results t c account q c' :
    pending !! k = Some account →
    query_usage_single account c = (inr q, c') →
    step_rel (ActComplete k) (Collecting pending results t, c)
             (Collecting (delete k pending) (<[res_name q := res_data q]> results) t, c')
| step_lock results t c :
    step_rel ActLock (Collecting [] results t, c) (Locked results t, c)
| step_clear results t c :
    step_rel ActClear (Locked results t, c)
             (Cleared results t, set_snapshot ∅ (last_update c) c)
| step_insert results t c :
    step_rel ActInsert (Cleared results t, c)
             (Stamping (dom results) results t,
              set_snapshot (results ∪ data c) (last_update c) c)
| step_stamp key todo results t c :
    key ∈ todo →
    step_rel (ActStamp key) (Stamping todo results t, c)
             (Stamping (todo ∖ {[key]}) results t,
              set_snapshot (data c) (<[key := t]> (last_update c)) c)
| step_unlock results t c :
    step_rel ActUnlock (Stamping ∅ results t, c) (Released results t, c)
| step_return results t c :
    step_rel ActReturn (Released results t, c) (Returned (data c), c)
| step_edit a edit ph c :
    ui_edit a = Some edit →
    step_rel a (ph, c) (ph, (edit c).2).

(** Futures not yet gathered. *)
Definition outstanding (ph : Phase) : nat :=
  match ph with
  | Collecting pending _ _ => length pending
  | _ => 0%nat
  end.

(** Names the refresh has a result for or is still waiting on. *)
Definition covered (ph : Phase) : gset string :=
  match ph with
  | Idle => ∅
  | Collecting pending results _ => dom results ∪ names pending
  | Locked r _ | Cleared r _ | Stamping _ r _ | Released r _ | Returned r => dom r
  end.

(** Entries the refresh will end with when names do not repeat. *)
Definition entries (ph : Phase) : nat :=
  match ph with
  | Idle => 0%nat
  | Collecting pending results _ => (size results + length pending)%nat
  | Locked r _ | Cleared r _ | Stamping _ r _ | Released r _ | Returned r => size r
  end.

Definition distinct (ph : Phase) : Prop :=
  match ph with
  | Collecting pending results _ =>
      NoDup (name <$> pending) ∧ ∀ a, a ∈ pending → results !! name a = None
  | _ => True
  end.

(** An edit of the registry by the interface thread. *)
Definition is_edit (a : Action) : bool :=
  match ui_edit a with Some _ => true | None => false end.

(** An edit that can take a name out of the registry: a deletion, an
    edit of an entry, which may rename it, and a reordering, which
    drops the entries the list widget does not show. *)
Definition may_remove (a : Action) : bool :=
  match a with
  | ActDelete _ | ActEdit _ _ | ActReorder _ => true
  | _ => false
  end.

(** The refresh is inside [with QMutexLocker(self.mutex)]. *)
Definition holds_mutex (ph : Phase) : bool :=
  match ph with
  | Locked _ _ | Cleared _ _ | Stamping _ _ _ => true
  | _ => false
  end.

(** The two ways to read the shared state while a refresh runs.  The
    readers of the code take no lock: [cf_client.data.copy()] in the
    notification dialog of cf2.py, [cf_client.last_update.get] in the
    detail pane of cfpandw.py.  They run between any two moves and meet
    snapshot and timestamps of the state reached.  A reader that took
    [self.mutex] would wait while the refresh is inside its [with]
    block; [None] stands for that wait. *)
Definition read_unlocked (s : Phase * Client) : gmap string UsageData * gmap string Z :=
  (data s.2, last_update s.2).

Definition read_locked (s : Phase * Client)
  : option (gmap string UsageData * gmap string Z) :=
  if holds_mutex s.1 then None else Some (read_unlocked s).

(** The results of a refresh that has gathered every future and entered
    its commit: the mapping it is installing, or has installed and
    returns. *)
Definition gathered (ph : Phase) : option (gmap string UsageData) :=
  match ph with
  | Locked r _ | Cleared r _ | Stamping _ r _ | Released r _ | Returned r => Some r
  | Idle | Collecting _ _ _ => None
  end.

(** Snapshot and timestamps while a refresh that submitted queries
    runs from client [c0]: untouched up to the clear, empty after it,
    the results from the insert on, with the timestamps of the names
    already stamped set to the clock read at the start. *)
Definition refresh_state (c0 : Client) (s : Phase * Client) : Prop :=
  match s.1 with
  | Idle => False
  | Collecting _ _ t | Locked _ t =>
      t = clock_local c0 ∧ data s.2 = data c0 ∧ last_update s.2 = last_update c0
  | Cleared _ t =>
      t = clock_local c0 ∧ data s.2 = ∅ ∧ last_update s.2 = last_update c0
  | Stamping todo r t =>
      t = clock_local c0 ∧ data s.2 = r ∧ todo ⊆ dom r
      ∧ ∀ k, last_update s.2 !! k
             = if bool_decide (k ∈ dom r ∖ todo) then Some t else last_update c0 !! k
  | Released r _ | Returned r =>
      data s.2 = r ∧ last_update s.2 = (const (clock_local c0) <$> r) ∪ last_update c0
  end.

(** The state after a refresh that found the registry of [c0] empty. *)
Definition returned_empty (c0 : Client) (s : Phase * Client) : Prop :=
  s.1 = Returned ∅ ∧ data s.2 = data c0 ∧ last_update s.2 = last_update c0.

(** ** A concrete platform and registry for examples *)

Definition demo_stamp : string := "2026-01-01T00:00:00".

Definition demo_platform : Platform := {|
  fromisoformat := λ s, if String.eqb s demo_stamp then Some (mkDatetime 0 false) else None;
  isoformat := λ dt, if dt_micros dt =? 0 then demo_stamp else "2026-01-01T00:00:01";
  lower := λ s, s;
  requests_get := λ _ _, inr (mkEnvelope true [mkRemote "id-1" "acme"]);
  requests_post := λ _ _, inr (mkGraphql [] [mkUsage [1; 2] [3]])
|}.

Definition demo_proxy : ProxyConfig := mkProxy false "http" "" "" "" "".

Definition acct_a : Account := mkAccount "A" "" "" "tok-a" "" "" "".
Definition acct_b : Account := mkAccount "B" "b@example.org" "key-b" "" "acc-b" "" "".

(** An account wearing both kinds of credentials. *)
Definition acct_both : Account := mkAccount "C" "c@example.org" "key-c" "tok-c" "" "" "".

(** An account that is no longer in the registry of [demo_client]. *)
Definition acct_gone : Account := mkAccount "Z" "" "" "tok-z" "" "" "".

Definition demo_client : Client :=
  mkClient [acct_a; acct_b] demo_proxy 60 ∅ ∅ 1000 1000 [].

(** The demo registry refreshed with nothing interfering, and refreshed
    while the first account is deleted right after submission. *)
Definition demo_refreshed : option (gmap string UsageData * Client) :=
  @update_all_accounts demo_platform (in_order (accounts demo_client)) demo_client.

Definition demo_deleted_in_flight : option (gmap string UsageData * Client) :=
  @update_all_accounts demo_platform
    ([ActDelete 0; ActComplete 0; ActComplete 0] ++ commit {[ "A"; "B" ]}) demo_client.

(** A client whose registry is empty while its snapshot still holds an
    entry. *)
Definition demo_emptied : Client :=
  mkClient [] demo_proxy 60 {[ "A" := UsageOk 6 3 3 "id-1" ]} {[ "A" := 500 ]} 1000 1000 [].

(** The demo registry with a snapshot on display, and a refresh of it
    in two parts: up to the clear, and from the insert to the return. *)
Definition demo_client_shown : Client :=
  mkClient [acct_a; acct_b] demo_proxy 60 {[ "A" := UsageOk 6 3 3 "id-1" ]} {[ "A" := 500 ]}
           1000 1000 [].

Definition up_to_the_clear : list Action :=
  [ActBegin; ActComplete 0; ActComplete 0; ActLock; ActClear].

Definition after_the_clear : list Action :=
  [ActInsert; ActStamp "A"; ActStamp "B"; ActUnlock; ActReturn].

(** A loop thread in the middle of its wait, nothing requested. *)
Definition demo_thread : Thread := mkThread (Waiting 100) true None demo_client [] 20.

(** A store whose mirror still lists an account, and the default
    configuration, whose account list is empty. *)
Definition stale_storage : Persistence.Storage :=
  Persistence.mkStorage
    (Some (Persistence.mkDatabase ∅ []))
    (Persistence.Doc (Persistence.mkDoc (Some [acct_b]) None None None)).

Definition demo_config : Persistence.Config :=
  Persistence.mkConfig [acct_a; acct_b] demo_proxy 60 1000.

(** ** Vocabulary of the further properties *)

(** The two requests the client sends, as built from the client state. *)
Definition accounts_request (email key api_token : string) (c : Client) : Request :=
  GetAccounts (build_headers email key api_token) (get_proxies (proxy c)).

Definition usage_request `{Platform} (account_info : Account) (id : string) (c : Client)
  : Request :=
  PostGraphql
    (build_headers (email account_info) (key account_info) (api_token account_info)) id
    (isoformat (mkDatetime (clock_utc c - clock_utc c `mod` MICROS_PER_DAY) true))
    (isoformat (mkDatetime (clock_utc c) true))
    (get_proxies (proxy c)).

Definition is_get (e : Event) : bool :=
  match e with EvRequest (GetAccounts _ _) => true | _ => false end.

Definition is_post (e : Event) : bool :=
  match e with EvRequest (PostGraphql _ _ _ _ _) => true | _ => false end.

(** The effects one query can leave, in order. *)
Definition query_trace (evs : list Event) : Prop :=
  evs = []
  ∨ (∃ g, is_get g = true ∧ evs = [g])
  ∨ (∃ p, is_post p = true ∧ evs = [p])
  ∨ (∃ p, is_post p = true ∧ evs = [EvSaveConfig; p])
  ∨ (∃ g p, is_get g = true ∧ is_post p = true ∧ evs = [g; EvSaveConfig; p]).

(** The test by which [get_account_id] picks an entry of the answer. *)
Definition name_matches `{Platform} (email : string) (acc : RemoteAccount) : bool :=
  String.prefix (lower email) (lower (remote_name acc)).

(** [n] moves of the loop thread with no other thread interfering. *)
Fixpoint moves `{Platform} (n : nat) (t : Thread) : option Thread :=
  match n with
  | O => Some t
  | S n' =>
      match run [] t with
      | Some t' => moves n' t'
      | None => None
      end
  end.

(** A client at the instant the demo platform prints as [demo_stamp],
    and an account whose cache was written at that instant. *)
Definition demo_client_at_zero : Client :=
  mkClient [acct_a; acct_b] demo_proxy 60 ∅ ∅ 0 0 [].

Definition acct_cached : Account := mkAccount "A" "" "" "tok-a" "" "id-7" demo_stamp.

Definition demo_client_cached : Client :=
  mkClient [acct_cached; acct_b] demo_proxy 60 ∅ ∅ 1000 1000 [].

(** The demo platform with the accounts endpoint unreachable, and with a
    usage endpoint that answers with an error next to its data. *)
Definition demo_platform_down : Platform := {|
  fromisoformat := @fromisoformat demo_platform;
  isoformat := @isoformat demo_platform;
  lower := @lower demo_platform;
  requests_get := λ _ _, inl (Exception "connect timeout");
  requests_post := @requests_post demo_platform
|}.

Definition demo_platform_limited : Platform := {|
  fromisoformat := @fromisoformat demo_platform;
  isoformat := @isoformat demo_platform;
  lower := @lower demo_platform;
  requests_get := @requests_get demo_platform;
  requests_post := λ _ _, inr (mkGraphql ["rate limited"] [mkUsage [1; 2] [3]])
|}.

(** ** cfpandw.py: the wait of [RefreshThread.run]

    The loop counts the time waited in [wait_count], in steps of 0.5;
    here the count is kept in half seconds, so that the test
    [wait_count < interval] reads [wait_count < 2 * interval].  One
    round is the test and, when it holds, [time.sleep(0.5)] and the
    increment; [None] when the test fails and the loop is left. *)
Definition wait_round (interval : Z) (wait_count : Z) (t : Thread) : option (Z * Thread) :=
  if (wait_count <? 2 * interval) && is_running t
     && negb (bool_decide (is_Some (pending_target t)))
  then Some (wait_count + 1,
             mkThread (loc t) (is_running t) (target_account t) (cf_client t)
                      (signals t) (S (sleeps t)))
  else None.

(** The loop run for at most [fuel] rounds with no other thread
    interfering: the thread when the loop is left and the rounds
    taken, or [None] when [fuel] rounds did not suffice. *)
Fixpoint wait_loop (fuel : nat) (interval : Z) (wait_count : Z) (t : Thread)
  : option (nat * Thread) :=
  match wait_round interval wait_count t with
  | None => Some (0%nat, t)
  | Some (wait_count', t') =>
      match fuel with
      | O => None
      | S fuel' =>
          match wait_loop fuel' interval wait_count' t' with
          | Some (rounds, t'') => Some (S rounds, t'')
          | None => None
          end
      end
  end.

(** A loop thread at the head of its loop with a request for a name
    that is not in the registry. *)
Definition demo_thread_unknown : Thread :=
  mkThread LoopHead true (Some "Z") demo_client [] 20.

(** A configuration in which a name is used twice, and a store with an
    empty database next to a mirror that lists two accounts. *)
Definition demo_config_repeated : Persistence.Config :=
  Persistence.mkConfig [acct_a; acct_b; mkAccount "A" "" "" "tok-2" "" "" ""]
                       demo_proxy 60 1000.

Definition empty_database : Persistence.Database := Persistence.mkDatabase ∅ [].

Definition demo_mirror : Persistence.JsonDoc :=
  Persistence.mkDoc (Some [acct_a; acct_b]) None (Some 120) None.

Definition legacy_storage : Persistence.Storage :=
  Persistence.mkStorage (Some empty_database) (Persistence.Doc demo_mirror).

(** A database whose refresh interval cell does not hold a number. *)
Definition damaged_database : Persistence.Database :=
  Persistence.mkDatabase
    (<["refresh_interval" := Persistence.CText "soon"]>
       (<["proxy" := Persistence.CJson (mkProxy true "http" "10.0.0.1" "8080" "" "")]> ∅))
    [Persistence.row_of_account acct_a].

(** ** SingleChartWidget (cfpandw.py)

    The widget keeps the last dictionary shown, the request limit and
    the history of plotted points, each a time and a request count.
    [None] is the empty dictionary.  [painted] records the calls of
    [clear_chart] and [draw_chart]. *)
Module Chart.

Inductive Painted :=
| Cleared
| Drawn.

Record SingleChartWidget := mkChart {
  chart_data : option UsageData;
  chart_request_limit : Z;
  history : list (Z * Z);
  max_history : nat;
  painted : list Painted
}.

(** The state [__init__] leaves. *)
Definition init : SingleChartWidget := mkChart None DEFAULT_REQUEST_LIMIT [] 20 [].

(** [not data or data.get("error")]. *)
Definition shows_nothing (d : option UsageData) : bool :=
  match d with
  | None => true
  | Some (UsageError error) => truthy error
  | Some (UsageOk _ _ _ _) => false
  end.

(** [data.get("requests", 0)]. *)
Definition requests_of (d : option UsageData) : Z :=
  match d with
  | Some (UsageOk requests _ _ _) => requests
  | _ => 0
  end.

Definition update_data (d : option UsageData) (limit : Z) (now : Z)
    (w : SingleChartWidget) : SingleChartWidget :=
  if shows_nothing d then
    mkChart d (chart_request_limit w) (history w) (max_history w) (painted w ++ [Cleared])
  else
    let current_requests := requests_of d in
    let last_requests :=
      match last (history w) with
      | Some (_, requests) => requests
      | None => -1
      end in
    if bool_decide (current_requests ≠ last_requests) then
      let appended := (history w ++ [(now, current_requests)])%list in
      let kept :=
        if bool_decide (max_history w < length appended)%nat then drop 1 appended
        else appended in
      mkChart d limit kept (max_history w) (painted w ++ [Drawn])
    else w.

(** The widget after a series of updates, each a dictionary, the limit
    and the time of the call. *)
Definition updates (calls : list (option UsageData * Z * Z)) (w : SingleChartWidget)
  : SingleChartWidget :=
  foldl (λ w call, update_data call.1.1 call.1.2 call.2 w) w calls.

End Chart.

(** ** ConfigManager of cfpandw.py: one JSON file *)
Module JsonStore.

(** An account as the file holds it: files written before the cache
    was introduced lack the two cache keys. *)
Record StoredAccount := mkStored {
  s_name : string;
  s_email : string;
  s_key : string;
  s_api_token : string;
  s_account_id : string;
  s_account_id_cache : option string;
  s_cache_update_time : option string
}.

Record StoredDoc := mkStoredDoc {
  sd_accounts : option (list StoredAccount);
  sd_proxy : option ProxyConfig;
  sd_refresh_interval : option Z;
  sd_request_limit : option Z
}.

Inductive File :=
| NoFile
| Corrupt
| Doc (d : StoredDoc).

(** How a write ends: done; [open] raised and the file is as before;
    [open] truncated the file and the dump raised. *)
Inductive WriteOutcome :=
| WriteOk
| OpenFailed
| DumpFailed.

Definition store_account (a : Account) : StoredAccount :=
  mkStored (name a) (email a) (key a) (api_token a) (account_id a)
           (Some (account_id_cache a)) (Some (cache_update_time a)).

(** The loop of [load_config] over the accounts: an entry without the
    key [account_id_cache] gets both cache fields empty; a missing
    [cache_update_time] alone reads as empty later on. *)
Definition upgrade_account (sa : StoredAccount) : Account :=
  match s_account_id_cache sa with
  | None =>
      mkAccount (s_name sa) (s_email sa) (s_key sa) (s_api_token sa) (s_account_id sa) "" ""
  | Some cache =>
      mkAccount (s_name sa) (s_email sa) (s_key sa) (s_api_token sa) (s_account_id sa)
                cache (default "" (s_cache_update_time sa))
  end.

Definition doc_of_config (cfg : Persistence.Config) : StoredDoc :=
  mkStoredDoc (Some (store_account <$> Persistence.cfg_accounts cfg))
              (Some (Persistence.cfg_proxy cfg))
              (Some (Persistence.cfg_refresh_interval cfg))
              (Some (Persistence.cfg_request_limit cfg)).

Definition save_config (cfg : Persistence.Config) (outcome : WriteOutcome) (file : File)
  : File :=
  match outcome with
  | WriteOk => Doc (doc_of_config cfg)
  | OpenFailed => file
  | DumpFailed => Corrupt
  end.

(** A file that does not exist or does not parse leaves the dictionary
    in memory as it is. *)
Definition load_config (cfg0 : Persistence.Config) (file : File) : Persistence.Config :=
  match file with
  | Doc d =>
      Persistence.mkConfig
        (match sd_accounts d with
         | Some l => upgrade_account <$> l
         | None => Persistence.cfg_accounts cfg0
         end)
        (default (Persistence.cfg_proxy cfg0) (sd_proxy d))
        (default (Persistence.cfg_refresh_interval cfg0) (sd_refresh_interval d))
        (default (Persistence.cfg_request_limit cfg0) (sd_request_limit d))
  | _ => cfg0
  end.

End JsonStore.

(** A registry order as the list widget shows it after a move. *)
Definition demo_items : list string := ["B"; "A"].

(** What every widget reached by updates satisfies: the history is
    within its bound and neighbouring points differ in their count. *)
Definition well_kept (w : Chart.SingleChartWidget) : Prop :=
  (length (Chart.history w) ≤ Chart.max_history w)%nat
  ∧ ∀ i p q, Chart.history w !! i = Some p → Chart.history w !! S i = Some q → p.2 ≠ q.2.

(** * Properties *)

(** Splits a membership hypothesis on an explicit list into its cases. *)
Ltac decompose_list_elem_of :=
  repeat match goal with
         | Hin : _ ∈ _ :: _ |- _ => apply elem_of_cons in Hin as [Hin|Hin]; [try subst|]
         | Hin : _ ∈ [] |- _ => by apply elem_of_nil in Hin
         end.

(** ** The definitions at work on the demo registry *)

Example get_proxies_disabled : get_proxies demo_proxy = None.
Proof. reflexivity. Qed.

Example get_proxies_with_login :
  get_proxies (mkProxy true "socks5" "10.0.0.1" "1080" "u" "p")
  = Some (mkProxies "socks5://u:p@10.0.0.1:1080" "socks5://u:p@10.0.0.1:1080").
Proof. reflexivity. Qed.

Example build_headers_email_key :
  build_headers "b@example.org" "key-b" ""
  = [("Content-Type", "application/json"); ("X-AUTH-EMAIL", "b@example.org");
     ("X-AUTH-KEY", "key-b")].
Proof. reflexivity. Qed.

Example query_explicit_identifier :
  (@query_usage_single demo_platform acct_b demo_client).1
  = inr (mkResult "B" (UsageOk 6 3 3 "acc-b")).
Proof. reflexivity. Qed.

Example query_without_credentials :
  (@query_usage_single demo_platform (mkAccount "N" "n@example.org" "" "" "" "" "")
     demo_client)
  = (inr (mkResult "N" (UsageError "未配置CF凭证（邮箱+Key或API Token）")), demo_client).
Proof. reflexivity. Qed.

Example query_resolves_and_caches :
  accounts (@query_usage_single demo_platform acct_a demo_client).2
  = [mkAccount "A" "" "" "tok-a" "" "id-1" "2026-01-01T00:00:01"; acct_b].
Proof. reflexivity. Qed.

Example stale_index_is_ignored :
  accounts (@update_account_cache demo_platform 7 "id-9" demo_client).2
  = accounts demo_client.
Proof. reflexivity. Qed.

Example str_of_int_negative : Persistence.str_of_int (-42) = "-42".
Proof. reflexivity. Qed.

Example int_of_str_forms :
  Persistence.int_of_str "+5" = Some 5
  ∧ Persistence.int_of_str " 300 " = Some 300
  ∧ Persistence.int_of_str "1_000" = Some 1000
  ∧ Persistence.int_of_str "-007" = Some (-7)
  ∧ Persistence.int_of_str "1__0" = None
  ∧ Persistence.int_of_str "- 5" = None
  ∧ Persistence.int_of_str "" = None.
Proof. repeat split; reflexivity. Qed.

Lemma truthy_true (s : string) : truthy s = true ↔ s ≠ "".
Proof.
  unfold truthy. rewrite negb_true_iff. split.
  - intros Hs ->. by rewrite String.eqb_refl in Hs.
  - intros Hs. by apply String.eqb_neq.
Qed.

Lemma truthy_false (s : string) : truthy s = false ↔ s = "".
Proof. unfold truthy. rewrite negb_false_iff. apply String.eqb_eq. Qed.

Section Resolution.
Context `{Platform}.

(** Resolution either answers from the cache and leaves the client as
    it was, or appends exactly one request to the log. *)
Lemma get_account_id_cases (email key api_token cache_id cache_time : string) (c : Client) :
  match cached_identifier (clock_local c) cache_id cache_time with
  | Some id => get_account_id email key api_token cache_id cache_time c = (inr id, c)
  | None =>
      ∃ r, get_account_id email key api_token cache_id cache_time c
           = (r, emit (EvRequest (GetAccounts (build_headers email key api_token)
                                              (get_proxies (proxy c)))) c)
  end.
Proof.
  unfold get_account_id, bind, get_client.
  destruct (cached_identifier _ _ _) as [id|]; [done|].
  unfold try_except, bind, call_get.
  destruct (requests_get _ _) as [e|resp]; [by eexists|].
  destruct (negb _ || _); [by eexists|].
  destruct (env_result resp !! _); by eexists.
Qed.

Lemma cached_identifier_fresh (now : Z) (cache_id cache_time : string) (cache_dt : datetime) :
  cache_id ≠ "" → cache_time ≠ "" →
  fromisoformat cache_time = Some cache_dt → dt_aware cache_dt = false →
  now - dt_micros cache_dt < TTL_MICROS →
  cached_identifier now cache_id cache_time = Some cache_id.
Proof.
  intros Hid Htime Hparse Hnaive Hage. unfold cached_identifier.
  apply truthy_true in Hid as ->. apply truthy_true in Htime as ->.
  rewrite Hparse, Hnaive.
  by destruct (Z.ltb_spec (now - dt_micros cache_dt)
                 (CACHE_EXPIRE_HOURS * 3600 * MICROS_PER_SECOND)); [|unfold TTL_MICROS in *; lia].
Qed.



End Resolution.


Section Queries.
Context `{Platform}.

Lemma extends_refl (hs : Headers) (c : Client) : extends hs c c.
Proof.
  repeat split. exists []. by rewrite app_nil_r.
Qed.

Lemma extends_trans (hs : Headers) (c1 c2 c3 : Client) :
  extends hs c1 c2 → extends hs c2 c3 → extends hs c1 c3.
Proof.
  intros (Hd1 & Ht1 & Hl1 & Hu1 & Hp1 & Hi1 & Hn1 & evs1 & Hlog1 & Hev1)
         (Hd2 & Ht2 & Hl2 & Hu2 & Hp2 & Hi2 & Hn2 & evs2 & Hlog2 & Hev2).
  repeat split; try congruence.
  exists (evs1 ++ evs2)%list. split.
  - by rewrite Hlog2, Hlog1, app_assoc.
  - by apply Forall_app.
Qed.

Lemma extends_emit (hs : Headers) (e : Event) (c : Client) :
  sent_with hs e → extends hs c (emit e c).
Proof.
  intros He. repeat split. exists [e]. split; [done|]. by constructor.
Qed.

Lemma names_alter (f : Account → Account) (i : nat) (l : list Account) :
  (∀ a, name (f a) = name a) → name <$> alter f i l = name <$> l.
Proof.
  intros Hf. revert i. induction l as [|a l IH]; intros [|i]; csimpl; [done..| |].
  - by rewrite Hf.
  - by rewrite IH.
Qed.

Lemma update_account_cache_extends (hs : Headers) (index : nat) (id : string) (c : Client) :
  ∃ c', update_account_cache index id c = (inr tt, c') ∧ extends hs c c'.
Proof.
  eexists. split; [reflexivity|].
  repeat split; simpl.
  - by apply names_alter.
  - exists [EvSaveConfig]. split; [done|]. by constructor.
Qed.

Lemma get_account_id_extends (email key api_token cache_id cache_time : string) (c : Client) :
  ∃ r c', get_account_id email key api_token cache_id cache_time c = (r, c')
          ∧ accounts c' = accounts c
          ∧ extends (build_headers email key api_token) c c'.
Proof.
  pose proof (get_account_id_cases email key api_token cache_id cache_time c) as Hcases.
  destruct (cached_identifier _ _ _) as [id|].
  - eexists _, _. split; [done|]. split; [done|]. apply extends_refl.
  - destruct Hcases as [r Hr]. eexists _, _. split; [done|]. split; [done|].
    by apply extends_emit.
Qed.

(** The first [try] block never lets an exception out, and a result
    it returns early is filed under the account's name. *)
Lemma resolve_identifier_spec (account_info : Account) (c : Client) :
  ∃ r c', resolve_identifier account_info c = (inr r, c')
          ∧ extends (build_headers (email account_info) (key account_info)
                                   (api_token account_info)) c c'
          ∧ match r with
            | inl failed => res_name failed = name account_info
            | inr _ => True
            end.
Proof.
  unfold resolve_identifier, try_except.
  destruct (negb (truthy (account_id account_info))).
  - unfold bind at 1.
    destruct (get_account_id_extends (email account_info) (key account_info)
                (api_token account_info) (account_id_cache account_info)
                (cache_update_time account_info) c) as (r & c1 & -> & Hacc & Hext).
    destruct r as [e|id]; [by eexists _, _|].
    unfold bind, get_accounts.
    destruct (index_where _ (accounts c1)) as [acc_index|]; [|by eexists _, _].
    destruct (update_account_cache_extends
                (build_headers (email account_info) (key account_info)
                               (api_token account_info)) acc_index id c1)
      as (c2 & Hupd & Hext2).
    unfold bind in Hupd. rewrite Hupd. eexists _, _. split; [done|].
    split; [|done]. by eapply extends_trans.
  - eexists _, _. split; [done|]. split; [apply extends_refl|done].
Qed.

Lemma query_usage_spec (account_info : Account) (id : string) (c : Client) :
  ∃ q c', query_usage account_info id c = (inr q, c')
          ∧ res_name q = name account_info
          ∧ extends (build_headers (email account_info) (key account_info)
                                   (api_token account_info)) c c'.
Proof.
  unfold query_usage, bind, get_client, try_except, call_post.
  destruct (requests_post _ _) as [e|result].
  - eexists _, _. split; [done|]. split; [done|]. by apply extends_emit.
  - destruct (gql_errors result), (gql_accounts result);
      (eexists _, _; split; [done|]; split; [done|]; by apply extends_emit).
Qed.

(** A query always returns a result, filed under the name of the
    account it was given, and touches the client only as [extends]
    allows. *)
Lemma query_usage_single_spec (account_info : Account) (c : Client) :
  ∃ q c', query_usage_single account_info c = (inr q, c')
          ∧ res_name q = name account_info
          ∧ extends (build_headers (email account_info) (key account_info)
                                   (api_token account_info)) c c'.
Proof.
  unfold query_usage_single.
  destruct (negb _ && negb _).
  - eexists _, _. split; [done|]. split; [done|]. apply extends_refl.
  - unfold bind.
    destruct (resolve_identifier_spec account_info c) as (r & c1 & -> & Hext & Hname).
    destruct r as [failed|id].
    + by eexists _, _.
    + destruct (query_usage_spec account_info id c1) as (q & c2 & -> & Hq & Hext2).
      eexists _, _. split; [done|]. split; [done|]. by eapply extends_trans.
Qed.

End Queries.

Section Authentication.
Context `{Platform}.




End Authentication.


Section DeletedAccount.
Context `{Platform}.

Lemma index_where_None {A} (p : A → bool) (l : list A) :
  (∀ x, x ∈ l → p x = false) → index_where p l = None.
Proof.
  induction l as [|x l IH]; intros Hp; [done|]. simpl.
  rewrite (Hp x) by set_solver. rewrite IH; [done|].
  intros y Hy. apply Hp. set_solver.
Qed.

(** C4, on the code.  Take an account with credentials and no explicit
    identifier whose resolution succeeds, and suppose no registry
    entry carries its name any more.  The name-indexed lookup then
    raises, the clause that guards resolution catches it, and the
    query stops there: its result is an error entry with the empty
    message, and the client is left as resolution left it, so no
    cache write and no usage request follow. *)
Theorem deleted_account_query_stops (a : Account) (id : string) (c c1 : Client) :
  has_credentials a = true →
  account_id a = "" →
  get_account_id (email a) (key a) (api_token a) (account_id_cache a)
                 (cache_update_time a) c = (inr id, c1) →
  (∀ acc, acc ∈ accounts c → name acc ≠ name a) →
  query_usage_single a c = (inr (mkResult (name a) (UsageError "")), c1).
Proof.
  intros Hcred Hid Hres Hgone.
  assert (accounts c1 = accounts c) as Hacc.
  { destruct (get_account_id_extends (email a) (key a) (api_token a)
                (account_id_cache a) (cache_update_time a) c)
      as (r & c' & Hr & Hacc & _).
    rewrite Hres in Hr. by simplify_eq. }
  assert (negb (truthy (email a) && truthy (key a)) && negb (truthy (api_token a)) = false)
    as Hguard.
  { unfold has_credentials in Hcred.
    by destruct (truthy (email a) && truthy (key a)), (truthy (api_token a)). }
  unfold query_usage_single. rewrite Hguard.
  unfold bind, resolve_identifier, try_except. rewrite Hid. simpl.
  unfold bind. rewrite Hres. unfold get_accounts. rewrite Hacc.
  rewrite index_where_None; [done|].
  intros acc Hin. apply String.eqb_neq. by apply Hgone.
Qed.

End DeletedAccount.

Lemma deleted_account_query_stops_witness :
  @query_usage_single demo_platform acct_gone demo_client
  = (inr (mkResult "Z" (UsageError "")),
     emit (EvRequest (GetAccounts (bearer_headers "tok-z") None)) demo_client).
Proof.
  apply (@deleted_account_query_stops demo_platform acct_gone "id-1" demo_client).
  - reflexivity.
  - reflexivity.
  - reflexivity.
  - intros acc Hin. unfold demo_client in Hin. simpl in Hin.
    decompose_list_elem_of; discriminate.
Defined.

Section SingleRefresh.
Context `{Platform}.

Lemma first_where_Some {A} (p : A → bool) (l : list A) (x : A) :
  first_where p l = Some x → x ∈ l ∧ p x = true.
Proof.
  induction l as [|y l IH]; [done|]. simpl.
  destruct (p y) eqn:Hy.
  - intros [= ->]. split; [apply list_elem_of_here|done].
  - intros Hx. destruct (IH Hx). split; [by apply list_elem_of_further|done].
Qed.

Lemma first_where_is_Some {A} (p : A → bool) (l : list A) (x : A) :
  x ∈ l → p x = true → is_Some (first_where p l).
Proof.
  induction l as [|y l IH]; intros Hin Hp; [by apply elem_of_nil in Hin|]. simpl.
  destruct (p y) eqn:Hy; [done|].
  apply elem_of_cons in Hin as [->|Hin]; [congruence|by apply IH].
Qed.

(** C6.  Refreshing the single account [X], present in the registry,
    writes the result of its query under key [X] in the snapshot and
    the clock under key [X] in the timestamps; every other key keeps
    its entry and its timestamp. *)
Theorem update_single_account_frame (X : string) (c : Client) :
  (∃ a, a ∈ accounts c ∧ name a = X) →
  ∃ d c',
    update_single_account X c = (inr {[ X := d ]}, c')
    ∧ data c' = <[X := d]> (data c)
    ∧ last_update c' = <[X := clock_local c]> (last_update c)
    ∧ ∀ Y, Y ≠ X →
           data c' !! Y = data c !! Y ∧ last_update c' !! Y = last_update c !! Y.
Proof.
  intros (a & Hin & Hname).
  destruct (first_where_is_Some (λ acc, String.eqb (name acc) X) (accounts c) a)
    as [account_info Hfirst]; [done|by apply String.eqb_eq|].
  apply first_where_Some in Hfirst as Hinfo. destruct Hinfo as [_ Hinfo].
  apply String.eqb_eq in Hinfo.
  destruct (query_usage_single_spec account_info c) as (q & c1 & Hq & Hres & Hext).
  destruct Hext as (Hdata & Hlast & Hclock & _).
  exists (res_data q), (set_snapshot (<[X := res_data q]> (data c1))
                                     (<[X := clock_local c1]> (last_update c1)) c1).
  split; [|split; [|split]].
  - unfold update_single_account, bind, get_accounts. rewrite Hfirst.
    unfold try_except, bind. rewrite Hq. simpl. by rewrite Hres, Hinfo.
  - simpl. by rewrite Hdata.
  - simpl. by rewrite Hlast, Hclock.
  - intros Y HY. simpl. rewrite Hdata, Hlast.
    by rewrite !lookup_insert_ne.
Qed.

End SingleRefresh.

Lemma update_single_account_frame_witness :
  ∃ d c',
    @update_single_account demo_platform "B" demo_client = (inr {[ "B" := d ]}, c')
    ∧ data c' = <["B" := d]> (data demo_client)
    ∧ last_update c' = <["B" := clock_local demo_client]> (last_update demo_client)
    ∧ ∀ Y, Y ≠ "B" →
           data c' !! Y = data demo_client !! Y
           ∧ last_update c' !! Y = last_update demo_client !! Y.
Proof.
  apply (@update_single_account_frame demo_platform "B" demo_client).
  exists acct_b. split; [|reflexivity].
  apply list_elem_of_further, list_elem_of_here.
Defined.

Lemma names_middle (l1 l2 : list Account) (account : Account) :
  names (l1 ++ account :: l2) = {[ name account ]} ∪ names (l1 ++ l2).
Proof.
  unfold names. apply set_eq. intros n.
  rewrite elem_of_union, elem_of_singleton, !elem_of_list_to_set, !fmap_app, fmap_cons.
  rewrite !elem_of_app, elem_of_cons. tauto.
Qed.

Lemma covered_complete (results : gmap string UsageData) (d : UsageData)
    (l1 l2 : list Account) (account : Account) :
  dom (<[name account := d]> results) ∪ names (l1 ++ l2)
  = dom results ∪ names (l1 ++ account :: l2).
Proof.
  rewrite dom_insert_L, names_middle. apply set_eq. intros n.
  rewrite !elem_of_union. tauto.
Qed.

Lemma covered_commit (results : gmap string UsageData) :
  dom results = dom results ∪ names [].
Proof. unfold names. simpl. by rewrite (right_id_L ∅ (∪)). Qed.

Section FullRefresh.
Context `{Platform}.

(** An edit of the interface thread leaves snapshot and timestamps
    alone. *)
Lemma ui_edit_frame (a : Action) (edit : M unit) (c : Client) :
  ui_edit a = Some edit →
  data (edit c).2 = data c ∧ last_update (edit c).2 = last_update c.
Proof.
  destruct a; simpl; intros [= <-].
  - unfold delete_account, bind, get_client. by case_bool_decide.
  - done.
  - unfold update_account, bind, get_client. by destruct (accounts c !! index).
  - unfold on_accounts_order_changed, bind, get_accounts. by case_bool_decide.
Qed.

Lemma ui_edit_not_complete (a : Action) (edit : M unit) :
  ui_edit a = Some edit → is_complete a = false.
Proof. by destruct a. Qed.

Lemma step_sound (a : Action) (s s' : Phase * Client) :
  step a s = Some s' → step_rel a s s'.
Proof.
  unfold step. destruct s as [ph c]. destruct (ui_edit a) as [edit|] eqn:Hedit.
  - intros [= <-]. by apply step_edit.
  - destruct a as [|k| | | |key| | |index|info|index info|items]; try done; simpl.
    + destruct ph; try done. case_bool_decide as Hacc; intros [= <-].
      * by apply step_begin_empty.
      * by apply step_begin.
    + destruct ph as [|pending results t| | | | |]; try done.
      destruct (pending !! k) as [account|] eqn:Hk; [|done].
      destruct (query_usage_single_spec account c) as (q & c1 & Hq & _ & _).
      rewrite Hq. intros [= <-]. by eapply step_complete.
    + destruct ph as [|[|] results t| | | | |]; try done. intros [= <-]. apply step_lock.
    + destruct ph; try done. intros [= <-]. apply step_clear.
    + destruct ph; try done. intros [= <-]. apply step_insert.
    + destruct ph; try done. case_bool_decide as Hkey; [|done].
      intros [= <-]. by apply step_stamp.
    + destruct ph as [| | | |todo results t| |]; try done.
      case_bool_decide as Htodo; [|done]. intros [= <-]. rewrite Htodo. apply step_unlock.
    + destruct ph; try done. intros [= <-]. apply step_return.
Qed.

Lemma execute_invariant (P : Phase * Client → Prop) (sched : list Action) (s s' : Phase * Client) :
  (∀ a s1 s2, P s1 → step_rel a s1 s2 → P s2) →
  P s → execute sched s = Some s' → P s'.
Proof.
  intros Hstep. revert s. induction sched as [|a sched IH]; intros s Hs; simpl.
  - by intros [= <-].
  - destruct (step a s) as [s1|] eqn:Ha; [|done].
    apply IH. eapply Hstep; [done|]. by apply step_sound.
Qed.

Lemma execute_app (sched1 sched2 : list Action) (s : Phase * Client) :
  execute (sched1 ++ sched2) s = s1 ← execute sched1 s; execute sched2 s1.
Proof.
  revert s. induction sched1 as [|a sched1 IH]; intros s; simpl; [done|].
  destruct (step a s); [apply IH|done].
Qed.

Lemma lookup_middle (pending : list Account) (k : nat) (account : Account) :
  pending !! k = Some account →
  ∃ l1 l2, pending = (l1 ++ account :: l2)%list ∧ delete k pending = (l1 ++ l2)%list.
Proof.
  intros Hk. exists (take k pending), (drop (S k) pending). split.
  - by rewrite take_drop_middle.
  - apply delete_take_drop.
Qed.

(** One move keeps the snapshot in the shape its phase prescribes. *)
Lemma step_rel_refresh_state (c0 : Client) (a : Action) (s1 s2 : Phase * Client) :
  refresh_state c0 s1 → step_rel a s1 s2 → refresh_state c0 s2.
Proof.
  unfold refresh_state. intros Hstate Hstep.
  inversion Hstep
    as [| |k pending results t c account q c1 Hk Hq|results t c|results t c|results t c
        |key todo results t c Hkey|results t c|results t c|a' edit ph c Hedit];
    subst; simpl in *; try done.
  - destruct (query_usage_single_spec account c) as (q' & c1' & Hq' & _ & Hext).
    rewrite Hq in Hq'. simplify_eq.
    destruct Hext as (Hdata & Hlast & _). by rewrite Hdata, Hlast.
  - by destruct Hstate as (-> & _ & ->).
  - destruct Hstate as (-> & Hdata & Hlast). rewrite Hdata, (right_id_L ∅ (∪)).
    split; [done|]. split; [done|]. split; [done|]. intros k.
    rewrite bool_decide_eq_false_2; [by rewrite Hlast|].
    intros Hk. by apply elem_of_difference in Hk as [? ?].
  - destruct Hstate as (-> & Hdata & Hsub & Hlast).
    split; [done|]. split; [done|]. split.
    + intros k Hk. apply Hsub. by apply elem_of_difference in Hk as [? _].
    + intros k. destruct (decide (k = key)) as [->|Hne].
      * rewrite lookup_insert_eq, bool_decide_eq_true_2; [done|].
        apply elem_of_difference. split; [by apply Hsub|].
        intros Hin. apply elem_of_difference in Hin as [_ Hin].
        apply Hin. by apply elem_of_singleton.
      * rewrite lookup_insert_ne by done. rewrite Hlast.
        rewrite (bool_decide_ext (k ∈ dom results ∖ todo)
                   (k ∈ dom results ∖ (todo ∖ {[key]}))); [done|].
        rewrite !elem_of_difference, elem_of_singleton.
        split; intros [Hdom Hnot]; (split; [done|]).
        -- by intros [? _].
        -- intros Hin. by apply Hnot.
  - destruct Hstate as (-> & Hdata & _ & Hlast). split; [done|].
    apply map_eq. intros k. rewrite Hlast, lookup_union, lookup_fmap.
    case_bool_decide as Hk.
    + apply elem_of_difference in Hk as [Hk _]. apply elem_of_dom in Hk as [d Hd].
      rewrite Hd. simpl. by destruct (last_update c0 !! k).
    + assert (results !! k = None) as Hnone.
      { apply not_elem_of_dom. intros Hd. apply Hk. apply elem_of_difference.
        split; [done|]. apply not_elem_of_empty. }
      rewrite Hnone. simpl. by destruct (last_update c0 !! k).
  - destruct Hstate as [Hdata Hlast]. by rewrite Hdata.
  - destruct (ui_edit_frame a edit c Hedit) as [-> ->]. by destruct ph.
Qed.

(** One move keeps the names the refresh accounts for, and, when the
    pending names are distinct and fresh, the number of entries it
    will end with. *)
Lemma step_rel_accounting (c0 : Client) (a : Action) (ph ph' : Phase) (c c' : Client) :
  refresh_state c0 (ph, c) → step_rel a (ph, c) (ph', c') →
  covered ph' = covered ph
  ∧ (distinct ph → distinct ph' ∧ entries ph' = entries ph)
  ∧ (outstanding ph' + (if is_complete a then 1 else 0) = outstanding ph)%nat.
Proof.
  intros Hstate Hstep.
  inversion Hstep
    as [| |k pending results t c1 account q c2 Hk Hq|results t c1|results t c1|results t c1
        |key todo results t c1 Hkey|results t c1|results t c1|a' edit ph1 c1 Hedit];
    subst; try done.
  - destruct (query_usage_single_spec account c) as (q' & c1' & Hq' & Hname & _).
    rewrite Hq in Hq'. simplify_eq.
    destruct (lookup_middle _ _ _ Hk) as (l1 & l2 & -> & ->).
    split; [|split].
    + simpl. rewrite Hname. apply covered_complete.
    + simpl. rewrite Hname. intros [Hnodup Hfresh].
      rewrite fmap_app, fmap_cons in Hnodup.
      apply NoDup_app in Hnodup as (Hl1 & Hl12 & Hl2).
      apply NoDup_cons in Hl2 as [Hl2 Hnd2].
      assert (results !! name account = None) as Hnone.
      { apply Hfresh. apply elem_of_app. right. apply list_elem_of_here. }
      split; [split|].
      * rewrite fmap_app. apply NoDup_app. split; [done|]. split; [|done].
        intros n Hn1 Hn2. apply (Hl12 n Hn1). by apply list_elem_of_further.
      * intros b Hb. rewrite lookup_insert_ne.
        -- apply Hfresh. apply elem_of_app in Hb as [Hb|Hb]; apply elem_of_app;
             [by left|right; by apply list_elem_of_further].
        -- intros Heq. apply elem_of_app in Hb as [Hb|Hb].
           ++ apply (Hl12 (name b)); [by apply list_elem_of_fmap_2|].
              rewrite <- Heq. apply list_elem_of_here.
           ++ apply Hl2. rewrite Heq. by apply list_elem_of_fmap_2.
      * rewrite map_size_insert_None by done. rewrite !length_app. simpl. lia.
    + simpl. rewrite !length_app. simpl. lia.
  - split; [|split].
    + apply covered_commit.
    + simpl. intros _. split; [done|lia].
    + done.
  - unfold refresh_state in Hstate. simpl in Hstate. destruct Hstate as [Hdata _].
    simpl. by rewrite Hdata.
  - rewrite (ui_edit_not_complete a edit Hedit). split; [done|]. split; [done|lia].
Qed.

Lemma step_rel_returned_empty (c0 : Client) (a : Action) (s1 s2 : Phase * Client) :
  returned_empty c0 s1 → step_rel a s1 s2 → returned_empty c0 s2.
Proof.
  unfold returned_empty. intros (Hph & Hdata & Hlast).
  inversion 1 as [| | | | | | | | |a' edit ph c Hedit]; subst; simpl in *; try done.
  by destruct (ui_edit_frame a edit c Hedit) as [-> ->].
Qed.

(** Once every future is in, the results in the frame stay what they
    are, and the copy returned is these results. *)
Lemma step_rel_gathered (c0 : Client) (a : Action) (s1 s2 : Phase * Client)
    (r : gmap string UsageData) :
  refresh_state c0 s1 → step_rel a s1 s2 →
  gathered s1.1 = Some r → gathered s2.1 = Some r.
Proof.
  intros Hstate Hstep.
  inversion Hstep as [| | | | | | | |results t c|]; subst; simpl; try done.
  unfold refresh_state in Hstate. simpl in Hstate. destruct Hstate as [Hdata _].
  by rewrite Hdata.
Qed.

Lemma execute_gathered (c0 : Client) (sched : list Action) (s s' : Phase * Client)
    (r : gmap string UsageData) :
  refresh_state c0 s → gathered s.1 = Some r →
  execute sched s = Some s' → gathered s'.1 = Some r.
Proof.
  revert s. induction sched as [|a sched IH]; intros s Hstate Hr; simpl.
  - by intros [= <-].
  - destruct (step a s) as [s1|] eqn:Ha; [|done]. apply step_sound in Ha.
    apply IH.
    + by eapply step_rel_refresh_state.
    + by eapply step_rel_gathered.
Qed.

Lemma execute_accounting (c0 : Client) (sched : list Action) (ph ph' : Phase) (c c' : Client) :
  refresh_state c0 (ph, c) → execute sched (ph, c) = Some (ph', c') →
  refresh_state c0 (ph', c')
  ∧ covered ph' = covered ph
  ∧ (distinct ph → distinct ph' ∧ entries ph' = entries ph)
  ∧ (outstanding ph' + completions sched = outstanding ph)%nat.
Proof.
  revert ph c. induction sched as [|a sched IH]; intros ph c Hstate; simpl.
  - intros [= <- <-]. split; [done|]. split; [done|]. split; [done|lia].
  - destruct (step a (ph, c)) as [[ph1 c1]|] eqn:Ha; [|done]. intros Hrun.
    apply step_sound in Ha.
    destruct (step_rel_accounting _ _ _ _ _ _ Hstate Ha) as (Hcov1 & Hdis1 & Hout1).
    pose proof (step_rel_refresh_state _ _ _ _ Hstate Ha) as Hstate1.
    destruct (IH ph1 c1 Hstate1 Hrun) as (Hstate' & Hcov' & Hdis' & Hout').
    split; [done|]. split; [congruence|]. split.
    + intros Hd. destruct (Hdis1 Hd) as [Hd1 He1].
      destruct (Hdis' Hd1) as [Hd' He']. split; [done|congruence].
    + lia.
Qed.

Lemma step_rel_names (a : Action) (s1 s2 : Phase * Client) :
  step_rel a s1 s2 → is_edit a = false →
  name <$> accounts s2.2 = name <$> accounts s1.2.
Proof.
  inversion 1 as [| |k pending results t c account q c1 Hk Hq| | | | | | |a' edit ph c Hedit];
    subst; try done.
  - destruct (query_usage_single_spec account c) as (q' & c1' & Hq' & _ & Hext).
    rewrite Hq in Hq'. simplify_eq. intros _. simpl. apply Hext.
  - unfold is_edit. by rewrite Hedit.
Qed.

Lemma execute_names (sched : list Action) (s s' : Phase * Client) :
  Forall (λ a, is_edit a = false) sched → execute sched s = Some s' →
  name <$> accounts s'.2 = name <$> accounts s.2.
Proof.
  intros Hsched. revert s. induction Hsched as [|a sched Ha _ IH]; intros s; simpl.
  - by intros [= <-].
  - destruct (step a s) as [s1|] eqn:Hstep; [|done]. intros Hrun.
    rewrite (IH _ Hrun). apply step_sound in Hstep. by eapply step_rel_names.
Qed.

(** A move that is no deletion, edit or reordering takes no name out
    of the registry. *)
Lemma step_rel_names_grow (a : Action) (s1 s2 : Phase * Client) :
  step_rel a s1 s2 → may_remove a = false →
  names (accounts s1.2) ⊆ names (accounts s2.2).
Proof.
  intros Hstep Hkeep. destruct (is_edit a) eqn:Hedit.
  - destruct a; try done. inversion Hstep as [| | | | | | | | |a' edit ph c Ha]; subst.
    simpl in Ha. injection Ha as <-. simpl. unfold names.
    rewrite fmap_app, list_to_set_app_L. apply union_subseteq_l.
  - unfold names. by rewrite (step_rel_names a s1 s2 Hstep Hedit).
Qed.

Lemma execute_names_grow (sched : list Action) (s s' : Phase * Client) :
  Forall (λ a, may_remove a = false) sched → execute sched s = Some s' →
  names (accounts s.2) ⊆ names (accounts s'.2).
Proof.
  intros Hsched. revert s. induction Hsched as [|a sched Ha _ IH]; intros s; simpl.
  - by intros [= <-].
  - destruct (step a s) as [s1|] eqn:Hstep; [|done]. intros Hrun.
    apply step_sound in Hstep. etrans; [by eapply step_rel_names_grow|by apply IH].
Qed.

(** The loop over the results stamps the keys it is given, in any
    order that lists each once. *)
Lemma execute_stamps (keys : list string) (rest : list Action) (todo : gset string)
    (r : gmap string UsageData) (t : Z) (c : Client) :
  NoDup keys → (∀ k, k ∈ keys → k ∈ todo) →
  ∃ c', execute ((ActStamp <$> keys) ++ rest) (Stamping todo r t, c)
        = execute rest (Stamping (todo ∖ list_to_set keys) r t, c').
Proof.
  revert todo c. induction keys as [|key keys IH]; intros todo c Hnodup Hin.
  - exists c. simpl. by rewrite difference_empty_L.
  - apply NoDup_cons in Hnodup as [Hkey Hnodup].
    destruct (IH (todo ∖ {[key]})
                 (set_snapshot (data c) (<[key := t]> (last_update c)) c) Hnodup)
      as [c' Hrun].
    { intros k Hk. apply elem_of_difference. split.
      - apply Hin. by apply list_elem_of_further.
      - intros Heq. apply elem_of_singleton in Heq. by subst. }
    exists c'. rewrite fmap_cons, list_to_set_cons. simpl. unfold step at 1. simpl.
    rewrite bool_decide_eq_true_2 by apply Hin, list_elem_of_here.
    by rewrite Hrun, difference_difference_l_L.
Qed.

(** With nothing interfering, the commit runs through to the return. *)
Lemma execute_commit (results : gmap string UsageData) (t : Z) (c : Client) :
  ∃ r c', execute (commit (dom results)) (Collecting [] results t, c)
          = Some (Returned r, c').
Proof.
  set (cleared := set_snapshot ∅ (last_update c) c).
  set (inserted := set_snapshot (results ∪ data cleared) (last_update cleared) cleared).
  destruct (execute_stamps (elements (dom results)) [ActUnlock; ActReturn] (dom results)
              results t inserted) as [c' Hrun].
  { apply NoDup_elements. }
  { intros k Hk. by apply elem_of_elements in Hk. }
  exists (data c'), c'. unfold commit. rewrite execute_app.
  assert (execute [ActLock; ActClear; ActInsert] (Collecting [] results t, c)
          = Some (Stamping (dom results) results t, inserted)) as -> by reflexivity.
  simpl. rewrite Hrun, list_to_set_elements_L, difference_diag_L. simpl.
  unfold step. simpl. by rewrite bool_decide_eq_true_2.
Qed.

(** With nothing interfering, the futures can always be gathered in
    submission order and the refresh returns. *)
Lemma execute_in_order (pending : list Account) (results : gmap string UsageData)
    (t : Z) (c : Client) :
  ∃ r c', execute (replicate (length pending) (ActComplete 0)
                   ++ commit (dom results ∪ names pending))
              (Collecting pending results t, c) = Some (Returned r, c').
Proof.
  revert results c. induction pending as [|account pending IH]; intros results c.
  - rewrite <- covered_commit. apply execute_commit.
  - destruct (query_usage_single_spec account c) as (q & c1 & Hq & Hname & _).
    destruct (IH (<[res_name q := res_data q]> results) c1) as (r & c' & Hrun).
    assert (dom (<[res_name q := res_data q]> results) ∪ names pending
            = dom results ∪ names (account :: pending)) as Hkeys.
    { rewrite Hname. apply (covered_complete results (res_data q) [] pending account). }
    exists r, c'. rewrite Hkeys in Hrun.
    simpl. unfold step at 1. simpl. by rewrite Hq.
Qed.

Lemma execute_begin (sched : list Action) (c : Client) (s' : Phase * Client) :
  execute (ActBegin :: sched) (Idle, c) = Some s' →
  (accounts c = [] ∧ execute sched (Returned ∅, c) = Some s')
  ∨ (accounts c ≠ [] ∧ execute sched (Collecting (accounts c) ∅ (clock_local c), c) = Some s').
Proof. simpl. unfold step at 1. simpl. case_bool_decide; intros Hrun; [by left|by right]. Qed.

Lemma execute_begin_submits (sched : list Action) (c : Client) :
  accounts c ≠ [] →
  execute (ActBegin :: sched) (Idle, c)
  = execute sched (Collecting (accounts c) ∅ (clock_local c), c).
Proof. intros Hacc. simpl. unfold step at 1. simpl. by rewrite bool_decide_eq_false_2. Qed.

Lemma refresh_state_begin (c : Client) :
  refresh_state c (Collecting (accounts c) ∅ (clock_local c), c).
Proof. by unfold refresh_state. Qed.

Lemma update_all_accounts_Some (sched : list Action) (c c' : Client)
    (r : gmap string UsageData) :
  update_all_accounts sched c = Some (r, c')
  ↔ execute (ActBegin :: sched) (Idle, c) = Some (Returned r, c').
Proof.
  unfold update_all_accounts.
  destruct (execute (ActBegin :: sched) (Idle, c)) as [[[] c1]|];
    split; intros Heq; by simplify_eq.
Qed.

(** C9.  When the registry is empty, a full refresh returns the empty
    mapping at once and the client is left exactly as it was: the
    snapshot is not cleared and no timestamp changes.  Nothing that
    the interface thread does to the registry meanwhile changes them
    either. *)
Theorem empty_registry_refresh_keeps_snapshot (c : Client) :
  accounts c = [] →
  update_all_accounts [] c = Some (∅, c)
  ∧ ∀ sched r c',
      update_all_accounts sched c = Some (r, c') →
      r = ∅ ∧ data c' = data c ∧ last_update c' = last_update c.
Proof.
  intros Hacc. split.
  - unfold update_all_accounts. simpl. unfold step. simpl.
    by rewrite bool_decide_eq_true_2.
  - intros sched r c' Hrun. apply update_all_accounts_Some in Hrun.
    apply execute_begin in Hrun as [[_ Hrun]|[Hne _]]; [|done].
    apply (execute_invariant (returned_empty c)) in Hrun;
      [|intros a s1 s2; apply step_rel_returned_empty|done].
    destruct Hrun as (Hph & Hdata & Hlast). simpl in *. by simplify_eq.
Qed.

(** C5.  Over a registry whose [N] names are pairwise distinct, a full
    refresh returns (it does so when the futures complete in order),
    and whenever it returns, under any completion order and any
    interleaved edits of the registry, the mapping it produces has
    exactly [N] entries, one under each submitted name, each a usage
    record or an error record; failures of the endpoints change neither
    the count nor the keys.  Unless the registry was empty, that
    mapping is the snapshot. *)
Theorem full_refresh_one_entry_per_account (c : Client) :
  NoDup (name <$> accounts c) →
  (∃ r c', update_all_accounts (in_order (accounts c)) c = Some (r, c'))
  ∧ ∀ sched r c',
      update_all_accounts sched c = Some (r, c') →
      size r = length (accounts c)
      ∧ dom r = names (accounts c)
      ∧ (∀ a, a ∈ accounts c → is_Some (r !! name a))
      ∧ (accounts c ≠ [] → data c' = r).
Proof.
  intros Hnodup. split.
  - destruct (accounts c) as [|account l] eqn:Hacc.
    + exists ∅, c. unfold update_all_accounts. simpl. unfold step. simpl.
      by rewrite bool_decide_eq_true_2.
    + destruct (execute_in_order (account :: l) ∅ (clock_local c) c) as (r & c' & Hrun).
      rewrite dom_empty_L, (left_id_L ∅ (∪)) in Hrun.
      exists r, c'. apply update_all_accounts_Some.
      rewrite execute_begin_submits by (by rewrite Hacc).
      rewrite Hacc. exact Hrun.
  - intros sched r c' Hrun. apply update_all_accounts_Some in Hrun.
    assert (size r = length (accounts c) ∧ dom r = names (accounts c)
            ∧ (accounts c ≠ [] → data c' = r)) as (Hsize & Hdom & Hdata).
    { apply execute_begin in Hrun as [[Hacc Hrun]|[Hacc Hrun]].
      - apply (execute_invariant (returned_empty c)) in Hrun as Hret;
          [|intros a s1 s2; apply step_rel_returned_empty|done].
        destruct Hret as (Hph & _). simpl in Hph. simplify_eq.
        rewrite Hacc. by split.
      - apply (execute_accounting c) in Hrun as Hcount; [|apply refresh_state_begin].
        destruct Hcount as (Hstate & Hcov & Hdis & _). simpl in Hcov.
        destruct Hdis as [_ Hent]; [by split|]. simpl in Hent.
        rewrite dom_empty_L, (left_id_L ∅ (∪)) in Hcov.
        rewrite map_size_empty in Hent.
        destruct Hstate as [Hstate _]. simpl in Hstate.
        by split; [|split]. }
    split; [done|]. split; [done|]. split; [|done].
    intros a Ha. apply elem_of_dom. rewrite Hdom. unfold names.
    apply elem_of_list_to_set. by apply list_elem_of_fmap_2.
Qed.

(** C2, as amended.  Whatever state a full refresh begun at client [c]
    has reached, under any completion order and any edits of the
    registry, a reader finds snapshot and timestamps as they were in
    [c], or else every submitted query has been gathered and the
    refresh has entered its commit.  In that case let [r] be the
    gathered results; its keys are exactly the submitted names and it
    is the mapping the refresh returns.  A reader that takes no lock
    finds the snapshot empty or equal to [r]; a reader that takes the
    lock finds the snapshot equal to [r] with every name of [r] stamped
    with the time read at the start.  So the old snapshot stays until
    all queries are in, a locked reader meets the old or the new state
    only, a reader without the lock can also meet the emptied snapshot,
    and no state mixes old keys with new values. *)
Theorem full_refresh_shows_old_empty_or_new
    (c : Client) (sched : list Action) (s : Phase * Client) :
  execute (ActBegin :: sched) (Idle, c) = Some s →
  read_unlocked s = (data c, last_update c)
  ∨ (∃ r, gathered s.1 = Some r
          ∧ dom r = names (accounts c)
          ∧ completions sched = length (accounts c)
          ∧ (∀ sched' r' c'', execute sched' s = Some (Returned r', c'') → r' = r)
          ∧ ((read_unlocked s).1 = ∅ ∨ (read_unlocked s).1 = r)
          ∧ (∀ seen, read_locked s = Some seen →
                     seen = (r, (const (clock_local c) <$> r) ∪ last_update c))).
Proof.
  destruct s as [ph c']. unfold read_locked, read_unlocked. simpl.
  intros Hrun. apply execute_begin in Hrun as [[Hacc Hrun]|[Hacc Hrun]].
  - left.
    apply (execute_invariant (returned_empty c)) in Hrun;
      [|intros a s1 s2; apply step_rel_returned_empty|done].
    destruct Hrun as (_ & Hdata & Hlast). simpl in *. by rewrite Hdata, Hlast.
  - apply (execute_accounting c) in Hrun; [|apply refresh_state_begin].
    destruct Hrun as (Hstate & Hcov & _ & Hout). simpl in Hcov, Hout.
    rewrite dom_empty_L, (left_id_L ∅ (∪)) in Hcov.
    assert (∀ r, gathered ph = Some r →
                 ∀ sched' r' c'', execute sched' (ph, c') = Some (Returned r', c'') → r' = r)
      as Hreturns.
    { intros r Hr sched' r' c'' Hrest.
      apply (execute_gathered c _ _ _ r Hstate Hr) in Hrest. simpl in Hrest. congruence. }
    unfold refresh_state in Hstate. simpl in Hstate.
    destruct ph as [|pending results t|r t|r t|todo r t|r t|r]; simpl in *.
    + done.
    + left. destruct Hstate as (_ & -> & ->). done.
    + left. destruct Hstate as (_ & -> & ->). done.
    + right. exists r. destruct Hstate as (_ & Hdata & _).
      repeat split; [done|lia|by apply Hreturns|by left|done].
    + right. exists r. destruct Hstate as (_ & Hdata & _).
      repeat split; [done|lia|by apply Hreturns|by right|done].
    + right. exists r. destruct Hstate as [Hdata Hlast].
      repeat split; [done|lia|by apply Hreturns|by right|].
      intros seen [= <-]. by rewrite Hdata, Hlast.
    + right. exists r. destruct Hstate as [Hdata Hlast].
      repeat split; [done|lia|by apply Hreturns|by right|].
      intros seen [= <-]. by rewrite Hdata, Hlast.
Qed.

(** C1, as amended.  A full refresh that found the registry non-empty
    leaves a snapshot whose keys are exactly the names read from the
    registry when the refresh began, whatever the interface thread did
    to the registry while it was in flight.  When nothing was deleted,
    edited or reordered in flight, these are at most the names in the
    registry when the refresh returns, and exactly these names when
    nothing was added either. *)
Theorem snapshot_holds_accounts_read_at_start
    (c : Client) (sched : list Action) (r : gmap string UsageData) (c' : Client) :
  accounts c ≠ [] →
  update_all_accounts sched c = Some (r, c') →
  dom (data c') = names (accounts c)
  ∧ (Forall (λ a, may_remove a = false) sched → dom (data c') ⊆ names (accounts c'))
  ∧ (Forall (λ a, is_edit a = false) sched → dom (data c') = names (accounts c')).
Proof.
  intros Hacc Hrun. apply update_all_accounts_Some in Hrun.
  apply execute_begin in Hrun as [[Hempty _]|[_ Hrun]]; [done|].
  apply (execute_accounting c) in Hrun as Hcount; [|apply refresh_state_begin].
  destruct Hcount as (Hstate & Hcov & _). simpl in Hcov.
  rewrite dom_empty_L, (left_id_L ∅ (∪)) in Hcov.
  destruct Hstate as [Hstate _]. simpl in Hstate. rewrite Hstate.
  split; [done|]. split; intros Hsched.
  - rewrite Hcov. by apply (execute_names_grow sched _ _ Hsched Hrun).
  - apply execute_names in Hrun; [|done]. simpl in Hrun.
    unfold names in *. by rewrite Hrun.
Qed.

End FullRefresh.

Lemma empty_registry_refresh_keeps_snapshot_witness :
  @update_all_accounts demo_platform [] demo_emptied = Some (∅, demo_emptied)
  ∧ ∀ sched r c',
      @update_all_accounts demo_platform sched demo_emptied = Some (r, c') →
      r = ∅ ∧ data c' = data demo_emptied ∧ last_update c' = last_update demo_emptied.
Proof.
  apply (@empty_registry_refresh_keeps_snapshot demo_platform demo_emptied).
  reflexivity.
Defined.

Lemma full_refresh_one_entry_per_account_witness :
  (∃ r c', @update_all_accounts demo_platform (in_order (accounts demo_client)) demo_client
           = Some (r, c'))
  ∧ ∀ sched r c',
      @update_all_accounts demo_platform sched demo_client = Some (r, c') →
      size r = length (accounts demo_client)
      ∧ dom r = names (accounts demo_client)
      ∧ (∀ a, a ∈ accounts demo_client → is_Some (r !! name a))
      ∧ (accounts demo_client ≠ [] → data c' = r).
Proof.
  apply (@full_refresh_one_entry_per_account demo_platform demo_client).
  simpl. apply NoDup_cons. split.
  - intros Hin. decompose_list_elem_of; discriminate.
  - apply NoDup_singleton.
Defined.

Lemma demo_refreshed_returns : ∃ r c', demo_refreshed = Some (r, c').
Proof. vm_compute. by eexists _, _. Qed.

Lemma full_refresh_shows_old_empty_or_new_witness :
  ∃ s,
    @execute demo_platform up_to_the_clear (Idle, demo_client_shown) = Some s
    ∧ (read_unlocked s = (data demo_client_shown, last_update demo_client_shown)
       ∨ (∃ r, gathered s.1 = Some r
               ∧ dom r = names (accounts demo_client_shown)
               ∧ completions (tail up_to_the_clear) = length (accounts demo_client_shown)
               ∧ (∀ sched' r' c'',
                    @execute demo_platform sched' s = Some (Returned r', c'') → r' = r)
               ∧ ((read_unlocked s).1 = ∅ ∨ (read_unlocked s).1 = r)
               ∧ (∀ seen, read_locked s = Some seen →
                          seen = (r, (const (clock_local demo_client_shown) <$> r)
                                       ∪ last_update demo_client_shown)))).
Proof.
  destruct (@execute demo_platform up_to_the_clear (Idle, demo_client_shown))
    as [s|] eqn:Hrun; [|by vm_compute in Hrun].
  exists s. split; [done|].
  exact (@full_refresh_shows_old_empty_or_new demo_platform demo_client_shown
           (tail up_to_the_clear) s Hrun).
Defined.

(** C2, as stated, fails.  The refresh of a registry whose snapshot
    shows an entry is run up to the clear: the snapshot a reader meets
    there is neither the one before the refresh nor the one the refresh
    goes on to install and return. *)
Lemma cleared_snapshot_is_observable :
  ∃ s r c'',
    @execute demo_platform up_to_the_clear (Idle, demo_client_shown) = Some s
    ∧ @execute demo_platform after_the_clear s = Some (Returned r, c'')
    ∧ (read_unlocked s).1 ≠ data demo_client_shown
    ∧ (read_unlocked s).1 ≠ r.
Proof.
  eexists _, _, _. split; [vm_compute; reflexivity|].
  split; [vm_compute; reflexivity|]. split.
  - intros Heq. apply (f_equal (λ m, m !! "A")) in Heq. vm_compute in Heq. discriminate.
  - intros Heq. apply (f_equal (λ m, m !! "A")) in Heq. vm_compute in Heq. discriminate.
Qed.

Lemma snapshot_holds_accounts_read_at_start_witness :
  ∃ r c',
    demo_refreshed = Some (r, c')
    ∧ dom (data c') = names (accounts demo_client)
    ∧ (Forall (λ a, may_remove a = false) (in_order (accounts demo_client)) →
       dom (data c') ⊆ names (accounts c'))
    ∧ (Forall (λ a, is_edit a = false) (in_order (accounts demo_client)) →
       dom (data c') = names (accounts c')).
Proof.
  destruct demo_refreshed_returns as (r & c' & Hrun).
  exists r, c'. split; [exact Hrun|].
  apply (@snapshot_holds_accounts_read_at_start demo_platform demo_client
           (in_order (accounts demo_client)) r c').
  - discriminate.
  - exact Hrun.
Defined.

(** C1, as stated, fails.  The first account is deleted right after the
    refresh has submitted its queries; the refresh completes, and its
    snapshot holds a key that the registry no longer has. *)
Lemma deleted_in_flight_remains_in_snapshot :
  ∃ r c',
    demo_deleted_in_flight = Some (r, c')
    ∧ ¬ (dom (data c') ⊆ names (accounts c')).
Proof.
  eexists _, _. split; [vm_compute; reflexivity|].
  intros Hsub. specialize (Hsub "A").
  rewrite elem_of_dom in Hsub. unfold names in Hsub.
  rewrite elem_of_list_to_set in Hsub.
  assert ("A" ∈ name <$> [acct_b]) as Hin.
  { apply Hsub. vm_compute. by eexists. }
  simpl in Hin. decompose_list_elem_of; discriminate.
Qed.

(** An account added while the refresh is in flight is in the registry
    when the refresh returns and not in the snapshot. *)
Example added_in_flight_is_not_in_snapshot :
  ∃ r c',
    @update_all_accounts demo_platform
      ([ActAdd acct_both; ActComplete 0; ActComplete 0] ++ commit {[ "A"; "B" ]}) demo_client
    = Some (r, c')
    ∧ name <$> accounts c' = ["A"; "B"; "C"]
    ∧ data c' !! "C" = None
    ∧ is_Some (data c' !! "A")
    ∧ is_Some (data c' !! "B").
Proof.
  eexists _, _. split; [vm_compute; reflexivity|].
  split; [reflexivity|]. split; [reflexivity|]. split; by eexists.
Qed.

Section Scheduler.
Context `{Platform}.

Lemma update_single_account_returns (account_name : string) (c : Client) :
  ∃ d c', update_single_account account_name c = (inr d, c').
Proof.
  unfold update_single_account, bind, get_accounts.
  destruct (first_where _ (accounts c)) as [account_info|]; [|by eexists _, _].
  unfold try_except, bind.
  destruct (query_usage_single_spec account_info c) as (q & c1 & -> & _ & _).
  by eexists _, _.
Qed.

Lemma pending_target_requested (account_name : string) (t : Thread) :
  account_name ≠ "" →
  pending_target (refresh_single_account account_name t) = Some account_name.
Proof.
  intros Hname. unfold pending_target. simpl. by apply truthy_true in Hname as ->.
Qed.

(** C8.  The loop thread is inside its wait and running when
    [refresh_single_account X] arrives.  Its next move, the poll that
    follows the sleep in progress, leaves the wait without sleeping
    again, however many polls were left; the move after that runs
    the single-account refresh of [X] and nothing else, emits one
    single-account signal for [X], clears the request and starts a
    new wait. *)
Theorem single_request_breaks_wait
    (t : Thread) (remaining : nat) (X : string) (sched1 sched2 : list Action) :
  loc t = Waiting remaining → is_running t = true → X ≠ "" →
  ∃ t1 t2 d,
    run sched1 (refresh_single_account X t) = Some t1
    ∧ loc t1 = LoopHead ∧ sleeps t1 = sleeps t
    ∧ cf_client t1 = cf_client t ∧ signals t1 = signals t
    ∧ run sched2 t1 = Some t2
    ∧ update_single_account X (cf_client t) = (inr d, cf_client t2)
    ∧ signals t2 = (signals t ++ [SingleUpdateSignal X (d !! X)])%list
    ∧ target_account t2 = None
    ∧ sleeps t2 = sleeps t
    ∧ loc t2 = Waiting (polls_of (refresh_interval (cf_client t2))).
Proof.
  intros Hloc Hrun HX.
  destruct (update_single_account_returns X (cf_client t)) as (d & c' & Hupd).
  pose proof (pending_target_requested X t HX) as Htarget.
  exists (mkThread LoopHead true (Some X) (cf_client t) (signals t) (sleeps t)).
  eexists _, d. split; [|split; [done|split; [done|split; [done|split; [done|]]]]].
  - unfold run. simpl. rewrite Hloc.
    destruct remaining as [|remaining]; [by rewrite Hrun|].
    by rewrite Hrun, Htarget.
  - split.
    + unfold run. simpl.
      unfold pending_target. simpl. apply truthy_true in HX as ->.
      by rewrite Hupd.
    + by repeat split.
Qed.

End Scheduler.

Lemma single_request_breaks_wait_witness :
  ∃ t1 t2 d,
    @run demo_platform [] (refresh_single_account "B" demo_thread) = Some t1
    ∧ loc t1 = LoopHead ∧ sleeps t1 = sleeps demo_thread
    ∧ cf_client t1 = cf_client demo_thread ∧ signals t1 = signals demo_thread
    ∧ @run demo_platform [] t1 = Some t2
    ∧ @update_single_account demo_platform "B" (cf_client demo_thread)
      = (inr d, cf_client t2)
    ∧ signals t2 = (signals demo_thread ++ [SingleUpdateSignal "B" (d !! "B")])%list
    ∧ target_account t2 = None
    ∧ sleeps t2 = sleeps demo_thread
    ∧ loc t2 = Waiting (polls_of (refresh_interval (cf_client t2))).
Proof.
  apply (@single_request_breaks_wait demo_platform demo_thread 100 "B" [] []).
  - reflexivity.
  - reflexivity.
  - discriminate.
Defined.

Section RoundTrip.
Import Persistence.

Lemma digit_plain (ch : Ascii.ascii) :
  is_digit ch = true →
  is_blank ch = false ∧ is_char 43 ch = false ∧ is_char 45 ch = false.
Proof. by destruct ch as [[] [] [] [] [] [] [] []]. Qed.

Lemma digits_of_uint (d : Decimal.uint) :
  digits_of true (NilEmpty.string_of_uint d) = Some (NilEmpty.string_of_uint d).
Proof. induction d; simpl; [done|by rewrite IHd..]. Qed.

Lemma rstrip_uint (d : Decimal.uint) :
  rstrip (NilEmpty.string_of_uint d) = NilEmpty.string_of_uint d.
Proof.
  induction d; simpl; [done|rewrite IHd; by destruct (NilEmpty.string_of_uint d)..].
Qed.

Lemma uint_leads_with_digit (d : Decimal.uint) :
  d ≠ Decimal.Nil →
  ∃ ch rest, NilEmpty.string_of_uint d = String ch rest ∧ is_digit ch = true.
Proof. destruct d; [done|by eexists _, _..]. Qed.

Lemma magnitude_uint (d : Decimal.uint) :
  d ≠ Decimal.Nil → magnitude (NilEmpty.string_of_uint d) = Some (Z.of_uint d).
Proof.
  intros Hd. unfold magnitude.
  destruct (uint_leads_with_digit d Hd) as (ch & rest & Hs & Hch).
  assert (digits_of false (NilEmpty.string_of_uint d) = Some (NilEmpty.string_of_uint d))
    as ->.
  { pose proof (digits_of_uint d) as Hall. rewrite Hs in *. simpl in *.
    by rewrite Hch in *. }
  simpl. by rewrite NilEmpty.usu.
Qed.

Lemma int_of_str_uint (d : Decimal.uint) :
  d ≠ Decimal.Nil →
  int_of_str (NilEmpty.string_of_uint d) = Some (Z.of_uint d)
  ∧ int_of_str ("-" +:+ NilEmpty.string_of_uint d) = Some (- Z.of_uint d).
Proof.
  intros Hd. pose proof (magnitude_uint d Hd) as Hvalue.
  pose proof (rstrip_uint d) as Hstrip.
  destruct (uint_leads_with_digit d Hd) as (ch & rest & Hs & Hch).
  destruct (digit_plain ch Hch) as (Hblank & Hplus & Hminus).
  rewrite Hs in *. unfold int_of_str. split.
  - simpl lstrip. rewrite Hblank, Hstrip, Hplus, Hminus. exact Hvalue.
  - simpl lstrip. simpl rstrip. simpl rstrip in Hstrip. rewrite Hstrip. simpl.
    by rewrite Hvalue.
Qed.

Lemma string_of_uint_nonnil (d : Decimal.uint) :
  d ≠ Decimal.Nil → NilZero.string_of_uint d = NilEmpty.string_of_uint d.
Proof. by destruct d. Qed.

Lemma int_of_str_of_int (z : Z) : int_of_str (str_of_int z) = Some z.
Proof.
  destruct z as [|p|p]; [done| |].
  - assert (Pos.to_uint p ≠ Decimal.Nil) as Hd
      by (intros Hnil; by apply DecimalPos.Unsigned.to_uint_nonnil in Hnil).
    destruct (int_of_str_uint _ Hd) as [Hpos _].
    change (str_of_int (Z.pos p)) with (NilZero.string_of_uint (Pos.to_uint p)).
    rewrite string_of_uint_nonnil by done. rewrite Hpos.
    f_equal. apply (DecimalZ.of_to (Z.pos p)).
  - assert (Pos.to_uint p ≠ Decimal.Nil) as Hd
      by (intros Hnil; by apply DecimalPos.Unsigned.to_uint_nonnil in Hnil).
    destruct (int_of_str_uint _ Hd) as [_ Hneg].
    change (str_of_int (Z.neg p)) with ("-" +:+ NilZero.string_of_uint (Pos.to_uint p)).
    rewrite string_of_uint_nonnil by done. rewrite Hneg.
    f_equal. apply (DecimalZ.of_to (Z.neg p)).
Qed.

Lemma or_empty_Some (s : string) : or_empty (Some s) = s.
Proof.
  unfold or_empty. destruct (truthy s) eqn:Hs; [done|].
  by apply truthy_false in Hs.
Qed.

Lemma account_of_row_of_account (acc : Account) :
  account_of_row (row_of_account acc) = acc.
Proof.
  destruct acc. unfold account_of_row, row_of_account. cbn -[or_empty].
  by rewrite !or_empty_Some.
Qed.

Lemma accounts_of_rows (l : list Account) :
  account_of_row <$> (row_of_account <$> l) = l.
Proof.
  induction l as [|acc l IH]; [done|]. csimpl.
  by rewrite account_of_row_of_account, IH.
Qed.

Lemma has_name_app (n : string) (tbl : list Row) (r : Row) :
  has_name n (tbl ++ [r]) = has_name n tbl || String.eqb (r_name r) n.
Proof.
  unfold has_name. rewrite existsb_app. simpl. by rewrite orb_false_r.
Qed.

(** Rows with pairwise distinct names, none of them in the table yet,
    all go in, in order. *)
Lemma insert_rows_distinct (rows tbl : list Row) :
  NoDup (r_name <$> rows) →
  (∀ r, r ∈ rows → has_name (r_name r) tbl = false) →
  insert_rows rows tbl = inr (tbl ++ rows)%list.
Proof.
  revert tbl. induction rows as [|r rows IH]; intros tbl Hnodup Hfresh; simpl.
  - by rewrite app_nil_r.
  - rewrite fmap_cons in Hnodup. apply NoDup_cons in Hnodup as [Hr Hnodup].
    rewrite Hfresh by apply list_elem_of_here.
    rewrite IH; [by rewrite <- app_assoc|done|].
    intros r' Hr'. rewrite has_name_app, Hfresh by by apply list_elem_of_further.
    simpl. apply String.eqb_neq. intros Heq. apply Hr. rewrite Heq.
    by apply list_elem_of_fmap_2.
Qed.

Lemma row_names (l : list Account) :
  r_name <$> (row_of_account <$> l) = name <$> l.
Proof. induction l as [|acc l IH]; [done|]. csimpl. by rewrite IH. Qed.

Lemma config_rows_non_empty (cfg : Config) : config_rows cfg ≠ ∅.
Proof. unfold config_rows. apply insert_non_empty. Qed.

(** Reading back what [save_config] wrote into the store overwrites
    every field of the dictionary in memory. *)
Lemma run_statements_saved (cfg cfg0 : Config) :
  run_statements
    (db_statements (mkDatabase (config_rows cfg) (row_of_account <$> cfg_accounts cfg)))
    cfg0
  = (cfg, true).
Proof.
  unfold db_statements. simpl.
  rewrite bool_decide_eq_false_2 by apply config_rows_non_empty.
  simpl. unfold read_proxy, read_refresh_interval, read_request_limit, config_rows.
  rewrite lookup_insert_ne, lookup_insert_ne, lookup_insert_eq by done. simpl.
  rewrite lookup_insert_ne, lookup_insert_eq by done. simpl.
  rewrite int_of_str_of_int. simpl.
  rewrite lookup_insert_eq. simpl.
  rewrite int_of_str_of_int. simpl.
  rewrite accounts_of_rows. by destruct cfg.
Qed.

(** C7, as amended.  With the SQLite store open and the account names
    of [cfg] pairwise distinct, saving [cfg] and then loading, from
    whatever dictionary was in memory, yields [cfg] in all fields and
    in the same account order, provided the account list is not
    empty, or the mirror write has reached the file, or the file
    holds no readable document. *)
Theorem save_then_load_roundtrip (cfg cfg0 : Config) (written : bool) (st : Storage) :
  is_Some (db st) →
  NoDup (name <$> cfg_accounts cfg) →
  (cfg_accounts cfg ≠ [] ∨ written = true ∨ ∀ d, json_file st ≠ Doc d) →
  (load_config cfg0 (save_config cfg written st)).1 = cfg.
Proof.
  intros [d Hdb] Hnodup Hmirror.
  unfold save_config. rewrite Hdb.
  rewrite (insert_rows_distinct _ []); [|by rewrite row_names|done]. simpl.
  unfold load_config, write_mirror.
  destruct written; simpl; rewrite run_statements_saved.
  - case_bool_decide as Hacc; [|done]. simpl.
    unfold update_from_doc, doc_of_config. simpl. by destruct cfg.
  - case_bool_decide as Hacc; [|done].
    destruct Hmirror as [Hne|[Hw|Hfile]]; [done|done|].
    unfold load_backup. simpl.
    destruct (json_file st) as [| |doc] eqn:Hjson; [done|done|].
    by destruct (Hfile doc).
Qed.

End RoundTrip.

Lemma save_then_load_roundtrip_witness :
  (Persistence.load_config Persistence.default_config
     (Persistence.save_config demo_config false stale_storage)).1 = demo_config.
Proof.
  apply (save_then_load_roundtrip demo_config Persistence.default_config false stale_storage).
  - by eexists.
  - simpl. apply NoDup_cons. split.
    + intros Hin. decompose_list_elem_of; discriminate.
    + apply NoDup_singleton.
  - left. discriminate.
Defined.

(** C7, as stated, fails.  The configuration with an empty account list
    is saved while the mirror still holds a document listing an account
    and the mirror write does not reach the file; loading then takes the
    account list from the mirror. *)
Lemma roundtrip_fails_on_stale_mirror :
  NoDup (name <$> Persistence.cfg_accounts Persistence.default_config)
  ∧ (Persistence.load_config Persistence.default_config
       (Persistence.save_config Persistence.default_config false stale_storage)).1
    ≠ Persistence.default_config.
Proof.
  split; [apply NoDup_nil_2|].
  vm_compute. discriminate.
Qed.

(** * Further properties of the client *)

Section FurtherQueries.
Context `{Platform}.

(** The second [try] block sends exactly its one request and files what
    comes back under the account's name. *)
Lemma query_usage_emit (a : Account) (id : string) (c : Client) :
  ∃ q, query_usage a id c = (inr q, emit (EvRequest (usage_request a id c)) c)
       ∧ res_name q = name a
       ∧ match res_data q with
         | UsageOk r p w id' => r = p + w ∧ id' = id
         | UsageError _ => True
         end.
Proof.
  unfold query_usage, bind, get_client, try_except, call_post, usage_request.
  destruct (requests_post _ _) as [e|result]; [by eexists|].
  destruct (gql_errors result); [|by eexists].
  destruct (gql_accounts result); by eexists.
Qed.

Lemma resolve_identifier_explicit (a : Account) (c : Client) :
  account_id a ≠ "" → resolve_identifier a c = (inr (inr (account_id a)), c).
Proof.
  intros Hid. unfold resolve_identifier, try_except.
  by apply truthy_true in Hid as ->.
Qed.

Lemma credentials_guard (a : Account) :
  has_credentials a = true →
  negb (truthy (email a) && truthy (key a)) && negb (truthy (api_token a)) = false.
Proof.
  unfold has_credentials.
  by destruct (truthy (email a) && truthy (key a)), (truthy (api_token a)).
Qed.

Lemma index_where_Some {A} (p : A → bool) (l : list A) (i : nat) :
  index_where p l = Some i → ∃ x, l !! i = Some x ∧ p x = true.
Proof.
  revert i. induction l as [|y l IH]; intros i; [done|]. simpl.
  destruct (p y) eqn:Hy.
  - intros [= <-]. by exists y.
  - destruct (index_where p l) as [j|]; [|done]. simpl. intros [= <-].
    by apply IH.
Qed.

(** The first [try] block when the identifier has to be resolved, case
    by case on what resolution and the registry lookup give. *)
Lemma resolve_identifier_lookup (a : Account) (c : Client) :
  account_id a = "" →
  match get_account_id (email a) (key a) (api_token a) (account_id_cache a)
                       (cache_update_time a) c with
  | (inl e, c1) =>
      resolve_identifier a c = (inr (inl (mkResult (name a) (UsageError (str_exn e)))), c1)
  | (inr id, c1) =>
      match index_where (λ acc, String.eqb (name acc) (name a)) (accounts c1) with
      | Some i =>
          resolve_identifier a c
          = (inr (inr id),
             emit EvSaveConfig
               (set_accounts
                  (alter (set_cache id (isoformat (mkDatetime (clock_local c1) false)))
                         i (accounts c1)) c1))
      | None =>
          resolve_identifier a c = (inr (inl (mkResult (name a) (UsageError ""))), c1)
      end
  end.
Proof.
  intros Hid. unfold resolve_identifier, try_except. rewrite Hid. simpl.
  unfold bind, get_accounts.
  destruct (get_account_id _ _ _ _ _ c) as [[e|id] c1]; [done|].
  by destruct (index_where _ (accounts c1)).
Qed.

(** X1.  An account that carries an explicit identifier is queried with
    that identifier and nothing else happens: the accounts endpoint is
    not called, the registry is not written, the one event is the
    usage request, and a usage record names the explicit identifier. *)
Theorem explicit_identifier_skips_resolution (a : Account) (c : Client) :
  has_credentials a = true → account_id a ≠ "" →
  ∃ q, query_usage_single a c
       = (inr q, emit (EvRequest (usage_request a (account_id a) c)) c)
       ∧ res_name q = name a
       ∧ match res_data q with
         | UsageOk r p w id => r = p + w ∧ id = account_id a
         | UsageError _ => True
         end.
Proof.
  intros Hcred Hid. unfold query_usage_single.
  rewrite credentials_guard by done. unfold bind.
  rewrite resolve_identifier_explicit by done.
  apply query_usage_emit.
Qed.

(** X2.  Whatever the account and whatever the endpoints answer, one
    query returns a result and leaves one of five traces: nothing; one
    accounts request; one usage request; a save and a usage request;
    an accounts request, a save and a usage request.  So it never
    raises, never sends more than one request to either endpoint, and
    sends the usage request last. *)
Theorem query_leaves_one_of_five_traces (a : Account) (c : Client) :
  ∃ q c' evs,
    query_usage_single a c = (inr q, c')
    ∧ log c' = (log c ++ evs)%list
    ∧ query_trace evs.
Proof.
  unfold query_usage_single, query_trace.
  destruct (negb _ && negb _).
  { exists (mkResult (name a) (UsageError "未配置CF凭证（邮箱+Key或API Token）")), c, [].
    split; [done|]. split; [by rewrite app_nil_r|by left]. }
  unfold bind.
  destruct (decide (account_id a = "")) as [Hid|Hid].
  - pose proof (resolve_identifier_lookup a c Hid) as Hres.
    pose proof (get_account_id_cases (email a) (key a) (api_token a)
                  (account_id_cache a) (cache_update_time a) c) as Hcases.
    destruct (cached_identifier _ _ _) as [id|].
    + rewrite Hcases in Hres.
      destruct (index_where _ (accounts c)) as [i|].
      * rewrite Hres.
        destruct (query_usage_emit a id
                    (emit EvSaveConfig
                       (set_accounts
                          (alter (set_cache id (isoformat (mkDatetime (clock_local c) false)))
                                 i (accounts c)) c))) as (q & -> & _).
        eexists q, _, _. split; [done|]. split; [simpl; by rewrite <- app_assoc|].
        do 3 right. left. eexists. split; [|reflexivity]. reflexivity.
      * rewrite Hres. eexists _, c, []. split; [done|].
        split; [by rewrite app_nil_r|by left].
    + destruct Hcases as [r Hr]. rewrite Hr in Hres.
      destruct r as [e|id].
      * rewrite Hres. eexists _, _, _. split; [done|]. split; [done|].
        right. left. eexists. split; [|reflexivity]. reflexivity.
      * simpl in Hres. destruct (index_where _ (accounts c)) as [i|].
        -- rewrite Hres.
           match goal with
           | |- context [query_usage a id ?c1] =>
               destruct (query_usage_emit a id c1) as (q & -> & _)
           end.
           eexists q, _, _. split; [done|].
           split; [simpl; by rewrite <- !app_assoc|].
           do 4 right. eexists _, _. split; [|split; [|reflexivity]]; reflexivity.
        -- rewrite Hres. eexists _, _, _. split; [done|]. split; [done|].
           right. left. eexists. split; [|reflexivity]. reflexivity.
  - rewrite resolve_identifier_explicit by done.
    destruct (query_usage_emit a (account_id a) c) as (q & -> & _).
    eexists q, _, _. split; [done|]. split; [done|].
    do 2 right. left. eexists. split; [|reflexivity]. reflexivity.
Qed.

(** X3.  A failed usage request is returned as data under the
    account's name, for an account with an explicit identifier: an
    exception of the call gives its text; a non-empty error list gives
    the first message behind the GraphQL prefix, even when usage data
    came along; an empty list of accounts in scope gives the fixed
    message.  In each case the usage request is the only event. *)
Theorem usage_failures_are_returned_as_data (a : Account) (c : Client) :
  has_credentials a = true → account_id a ≠ "" →
  let req := usage_request a (account_id a) c in
  let failed msg := (inr (mkResult (name a) (UsageError msg)), emit (EvRequest req) c) in
  (∀ e, requests_post (log c) req = inl e →
        query_usage_single a c = failed (str_exn e))
  ∧ (∀ g m ms, requests_post (log c) req = inr g → gql_errors g = m :: ms →
               query_usage_single a c = failed ("GraphQL错误: " +:+ m))
  ∧ (∀ g, requests_post (log c) req = inr g → gql_errors g = [] → gql_accounts g = [] →
          query_usage_single a c = failed "未获取到账户使用数据").
Proof.
  intros Hcred Hid req failed.
  assert (query_usage_single a c = query_usage a (account_id a) c) as ->.
  { unfold query_usage_single. rewrite credentials_guard by done. unfold bind.
    by rewrite resolve_identifier_explicit. }
  subst req failed.
  unfold query_usage, bind, get_client, try_except, call_post, usage_request.
  split; [|split].
  - by intros e ->.
  - by intros g m ms -> ->.
  - by intros g -> -> ->.
Qed.


(** X5.  After a query has resolved an identifier for an account found
    in the registry at index [i], the entry at [i] holds it, stamped
    with the time of the query; when that stamp reads back as written,
    resolving the entry again within 24 hours of the query returns the
    identifier without any request. *)
Theorem resolved_identifier_is_cached
    (a : Account) (c c1 : Client) (id : string) (i : nat) :
  has_credentials a = true → account_id a = "" →
  get_account_id (email a) (key a) (api_token a) (account_id_cache a)
                 (cache_update_time a) c = (inr id, c1) →
  index_where (λ acc, String.eqb (name acc) (name a)) (accounts c) = Some i →
  id ≠ "" →
  isoformat (mkDatetime (clock_local c) false) ≠ "" →
  fromisoformat (isoformat (mkDatetime (clock_local c) false))
  = Some (mkDatetime (clock_local c) false) →
  ∃ a',
    accounts (query_usage_single a c).2 !! i = Some a'
    ∧ name a' = name a
    ∧ account_id_cache a' = id
    ∧ ∀ c2, clock_local c2 - clock_local c < TTL_MICROS →
            get_account_id (email a') (key a') (api_token a') (account_id_cache a')
                           (cache_update_time a') c2 = (inr id, c2).
Proof.
  intros Hcred Hid Hget Hindex Hne Hstamp Hparse.
  destruct (get_account_id_extends (email a) (key a) (api_token a)
              (account_id_cache a) (cache_update_time a) c)
    as (r & c1' & Hr & Hacc & Hext).
  rewrite Hget in Hr. simplify_eq.
  destruct Hext as (_ & _ & Hclock & _).
  pose proof (resolve_identifier_lookup a c Hid) as Hres.
  rewrite Hget, Hacc, Hindex, Hclock in Hres.
  destruct (index_where_Some _ _ _ Hindex) as (b & Hb & Hname).
  apply String.eqb_eq in Hname.
  exists (set_cache id (isoformat (mkDatetime (clock_local c) false)) b).
  split; [|split; [done|split; [done|]]].
  - unfold query_usage_single. rewrite credentials_guard by done.
    unfold bind. rewrite Hres.
    match goal with
    | |- context [query_usage a id ?c2] =>
        destruct (query_usage_emit a id c2) as (q & -> & _)
    end.
    simpl. by rewrite list_lookup_alter_eq, Hb.
  - intros c2 Hage. simpl.
    pose proof (get_account_id_cases (email b) (key b) (api_token b) id
                  (isoformat (mkDatetime (clock_local c) false)) c2) as Hcases.
    by rewrite (cached_identifier_fresh _ _ _ (mkDatetime (clock_local c) false))
      in Hcases.
Qed.

Lemma prefix_app (s m : string) : String.prefix s (s +:+ m) = true.
Proof.
  induction s as [|ch s IH]; simpl; [by destruct m|].
  by destruct (Ascii.ascii_dec ch ch).
Qed.

(** X6.  When resolution fails, for an account with credentials and no
    explicit identifier, the query returns the failure as an error
    record whose text starts with the resolution prefix; the accounts
    request is the only event, so no usage request is sent and nothing
    is written back. *)
Theorem resolution_failure_is_returned_wrapped (a : Account) (c c1 : Client) (e : exn) :
  has_credentials a = true → account_id a = "" →
  get_account_id (email a) (key a) (api_token a) (account_id_cache a)
                 (cache_update_time a) c = (inl e, c1) →
  query_usage_single a c = (inr (mkResult (name a) (UsageError (str_exn e))), c1)
  ∧ String.prefix "获取Account ID失败: " (str_exn e) = true
  ∧ c1 = emit (EvRequest (accounts_request (email a) (key a) (api_token a) c)) c.
Proof.
  intros Hcred Hid Hget.
  pose proof (resolve_identifier_lookup a c Hid) as Hres. rewrite Hget in Hres.
  split; [|split].
  - unfold query_usage_single. rewrite credentials_guard by done.
    unfold bind. by rewrite Hres.
  - revert Hget. unfold get_account_id, bind, get_client.
    destruct (cached_identifier _ _ _); [done|].
    unfold try_except, bind, call_get.
    destruct (requests_get _ _) as [e0|resp].
    + intros [= <- _]. apply prefix_app.
    + destruct (negb _ || _).
      * intros [= <- _]. apply prefix_app.
      * destruct (env_result resp !! _); [done|].
        intros [= <- _]. apply prefix_app.
  - pose proof (get_account_id_cases (email a) (key a) (api_token a)
                  (account_id_cache a) (cache_update_time a) c) as Hcases.
    destruct (cached_identifier _ _ _); [by rewrite Hcases in Hget|].
    destruct Hcases as [r Hr]. rewrite Hr in Hget. by simplify_eq.
Qed.

Lemma index_where_first_where {A} (p : A → bool) (l : list A) (hd : A) :
  (hd :: l) !! default 0%nat (index_where p (hd :: l))
  = Some (default hd (first_where p (hd :: l))).
Proof.
  simpl. destruct (p hd); [done|].
  induction l as [|x l IH]; [done|]. simpl.
  destruct (p x); [done|].
  destruct (index_where p l) as [j|] eqn:Hj; simpl in *.
  - destruct (first_where p l); [done|].
    destruct j; simpl in IH; [|done].
    apply index_where_Some in Hj as (y & Hy & _). by destruct l.
  - by destruct (first_where p l) eqn:Hf.
Qed.

(** X7.  When the cache does not answer and the accounts endpoint
    returns a successful, non-empty list, resolution returns the
    identifier of the first entry whose lowered name starts with the
    lowered email, and of the first entry of the list when no name
    does; the accounts request is the only event. *)
Theorem resolution_picks_first_match
    (email key api_token cache_id cache_time : string) (c : Client)
    (env : AccountsEnvelope) (first : RemoteAccount) (rest : list RemoteAccount) :
  cached_identifier (clock_local c) cache_id cache_time = None →
  requests_get (log c) (accounts_request email key api_token c) = inr env →
  env_success env = true →
  env_result env = first :: rest →
  get_account_id email key api_token cache_id cache_time c
  = (inr (remote_id (default first (first_where (name_matches email) (env_result env)))),
     emit (EvRequest (accounts_request email key api_token c)) c).
Proof.
  intros Hcache Hget Hok Hlist.
  unfold get_account_id, bind, get_client. rewrite Hcache.
  unfold try_except, bind, call_get. fold (accounts_request email key api_token c).
  rewrite Hget, Hok, Hlist. simpl negb. rewrite bool_decide_eq_false_2 by done.
  cbn [orb]. fold (name_matches email).
  by rewrite (index_where_first_where (name_matches email) rest first).
Qed.

End FurtherQueries.

Lemma explicit_identifier_skips_resolution_witness :
  ∃ q, @query_usage_single demo_platform acct_b demo_client
       = (inr q, emit (EvRequest (@usage_request demo_platform acct_b "acc-b" demo_client))
                      demo_client)
       ∧ res_name q = "B"
       ∧ match res_data q with
         | UsageOk r p w id => r = p + w ∧ id = "acc-b"
         | UsageError _ => True
         end.
Proof.
  apply (@explicit_identifier_skips_resolution demo_platform acct_b demo_client).
  - reflexivity.
  - discriminate.
Defined.

Lemma usage_failures_are_returned_as_data_witness :
  @query_usage_single demo_platform_limited acct_b demo_client
  = (inr (mkResult "B" (UsageError "GraphQL错误: rate limited")),
     emit (EvRequest (@usage_request demo_platform_limited acct_b "acc-b" demo_client))
          demo_client).
Proof.
  apply (proj1 (proj2 (@usage_failures_are_returned_as_data demo_platform_limited
                         acct_b demo_client eq_refl ltac:(discriminate)))
           (mkGraphql ["rate limited"] [mkUsage [1; 2] [3]]) "rate limited" []).
  - reflexivity.
  - reflexivity.
Defined.


Lemma resolved_identifier_is_cached_witness :
  ∃ a',
    accounts (@query_usage_single demo_platform acct_a demo_client_at_zero).2 !! 0%nat
    = Some a'
    ∧ name a' = "A"
    ∧ account_id_cache a' = "id-1"
    ∧ ∀ c2, clock_local c2 - 0 < TTL_MICROS →
            @get_account_id demo_platform (email a') (key a') (api_token a')
              (account_id_cache a') (cache_update_time a') c2 = (inr "id-1", c2).
Proof.
  apply (@resolved_identifier_is_cached demo_platform acct_a demo_client_at_zero
           (emit (EvRequest (accounts_request "" "" "tok-a" demo_client_at_zero))
                 demo_client_at_zero) "id-1" 0).
  - reflexivity.
  - reflexivity.
  - reflexivity.
  - reflexivity.
  - discriminate.
  - discriminate.
  - reflexivity.
Defined.

Lemma resolution_failure_is_returned_wrapped_witness :
  @query_usage_single demo_platform_down acct_a demo_client
  = (inr (mkResult "A" (UsageError "获取Account ID失败: connect timeout")),
     emit (EvRequest (accounts_request "" "" "tok-a" demo_client)) demo_client)
  ∧ String.prefix "获取Account ID失败: " "获取Account ID失败: connect timeout" = true
  ∧ emit (EvRequest (accounts_request "" "" "tok-a" demo_client)) demo_client
    = emit (EvRequest (accounts_request "" "" "tok-a" demo_client)) demo_client.
Proof.
  apply (@resolution_failure_is_returned_wrapped demo_platform_down acct_a demo_client
           (emit (EvRequest (accounts_request "" "" "tok-a" demo_client)) demo_client)
           (Exception "获取Account ID失败: connect timeout")).
  - reflexivity.
  - reflexivity.
  - reflexivity.
Defined.

Lemma resolution_picks_first_match_witness :
  @get_account_id demo_platform "" "" "tok-a" "" "" demo_client
  = (inr "id-1", emit (EvRequest (accounts_request "" "" "tok-a" demo_client)) demo_client).
Proof.
  apply (@resolution_picks_first_match demo_platform "" "" "tok-a" "" "" demo_client
           (mkEnvelope true [mkRemote "id-1" "acme"]) (mkRemote "id-1" "acme") []).
  - reflexivity.
  - reflexivity.
  - reflexivity.
  - reflexivity.
Defined.

(** * Further properties of the aggregator *)

Lemma size_names_le (l : list string) : (size (list_to_set l : gset string) ≤ length l)%nat.
Proof.
  induction l as [|x l IH]; [done|]. rewrite list_to_set_cons. simpl.
  rewrite size_union_alt, size_singleton.
  pose proof (subseteq_size (list_to_set l ∖ {[x]}) (list_to_set l : gset string)
                ltac:(apply subseteq_difference_l; reflexivity)).
  lia.
Qed.

Lemma size_names_NoDup (l : list string) :
  size (list_to_set l : gset string) = length l ↔ NoDup l.
Proof.
  split; [|apply size_list_to_set].
  induction l as [|x l IH]; [constructor|].
  rewrite list_to_set_cons. simpl. intros Hsize.
  destruct (decide (x ∈ l)) as [Hin|Hin].
  - assert ({[x]} ∪ list_to_set l = (list_to_set l : gset string)) as Heq.
    { apply subseteq_union_1_L, singleton_subseteq_l. by apply elem_of_list_to_set. }
    rewrite Heq in Hsize. pose proof (size_names_le l). lia.
  - rewrite size_union, size_singleton in Hsize.
    + apply NoDup_cons. split; [done|]. apply IH. lia.
    + apply disjoint_singleton_l. by rewrite elem_of_list_to_set.
Qed.

Section FurtherRefresh.
Context `{Platform}.

Lemma first_where_None {A} (p : A → bool) (l : list A) :
  (∀ x, x ∈ l → p x = false) → first_where p l = None.
Proof.
  induction l as [|x l IH]; intros Hp; [done|]. simpl.
  rewrite (Hp x) by apply list_elem_of_here.
  apply IH. intros y Hy. apply Hp. by apply list_elem_of_further.
Qed.

(** X8.  A single-account refresh for a name that no registry entry
    carries returns the empty dictionary and leaves the client as it
    was: no request, no write to the snapshot or the timestamps. *)
Theorem update_single_account_unknown_name (X : string) (c : Client) :
  (∀ acc, acc ∈ accounts c → name acc ≠ X) →
  update_single_account X c = (inr ∅, c).
Proof.
  intros Hgone. unfold update_single_account, bind, get_accounts.
  rewrite first_where_None; [done|].
  intros acc Hin. apply String.eqb_neq. by apply Hgone.
Qed.

(** X9.  After a full refresh over a non-empty registry, every name in
    the returned mapping is stamped with the time read when the refresh
    began, and every other name keeps the timestamp it had: the
    timestamps of accounts that are gone are never removed. *)
Theorem full_refresh_stamps_what_it_returns
    (c : Client) (sched : list Action) (r : gmap string UsageData) (c' : Client) :
  accounts c ≠ [] →
  update_all_accounts sched c = Some (r, c') →
  ∀ k, (is_Some (r !! k) → last_update c' !! k = Some (clock_local c))
       ∧ (r !! k = None → last_update c' !! k = last_update c !! k).
Proof.
  intros Hacc Hrun k. apply update_all_accounts_Some in Hrun.
  apply execute_begin in Hrun as [[Hempty _]|[_ Hrun]]; [done|].
  apply (execute_invariant (refresh_state c)) in Hrun;
    [|intros a s1 s2; apply step_rel_refresh_state|apply refresh_state_begin].
  destruct Hrun as [_ Hlast]. simpl in Hlast. rewrite Hlast. split.
  - intros [d Hd]. apply lookup_union_Some_l. by rewrite lookup_fmap, Hd.
  - intros Hd. apply lookup_union_r. by rewrite lookup_fmap, Hd.
Qed.

(** X10.  The mapping a full refresh returns never has more entries
    than the registry had accounts when the refresh began, and it has
    as many exactly when their names are pairwise distinct: accounts
    that share a name share one entry. *)
Theorem full_refresh_merges_equal_names
    (c : Client) (sched : list Action) (r : gmap string UsageData) (c' : Client) :
  update_all_accounts sched c = Some (r, c') →
  (size r ≤ length (accounts c))%nat
  ∧ (size r = length (accounts c) ↔ NoDup (name <$> accounts c)).
Proof.
  intros Hrun. apply update_all_accounts_Some in Hrun.
  assert (dom r = names (accounts c)) as Hdom.
  { apply execute_begin in Hrun as [[Hacc Hrun]|[Hacc Hrun]].
    - apply (execute_invariant (returned_empty c)) in Hrun;
        [|intros a s1 s2; apply step_rel_returned_empty|done].
      destruct Hrun as (Hph & _). simpl in Hph. simplify_eq.
      rewrite Hacc. unfold names. simpl. apply dom_empty_L.
    - apply (execute_accounting c) in Hrun; [|apply refresh_state_begin].
      destruct Hrun as (_ & Hcov & _). simpl in Hcov.
      by rewrite dom_empty_L, (left_id_L ∅ (∪)) in Hcov. }
  rewrite <- size_dom, Hdom. unfold names.
  rewrite <- (length_fmap name (accounts c)).
  split; [apply size_names_le|apply size_names_NoDup].
Qed.

End FurtherRefresh.

Lemma update_single_account_unknown_name_witness :
  @update_single_account demo_platform "Z" demo_client = (inr ∅, demo_client).
Proof.
  apply (@update_single_account_unknown_name demo_platform "Z" demo_client).
  intros acc Hin. unfold demo_client in Hin. simpl in Hin.
  decompose_list_elem_of; discriminate.
Defined.

Lemma full_refresh_stamps_what_it_returns_witness :
  ∃ r c',
    demo_refreshed = Some (r, c')
    ∧ ∀ k, (is_Some (r !! k) → last_update c' !! k = Some (clock_local demo_client))
           ∧ (r !! k = None → last_update c' !! k = last_update demo_client !! k).
Proof.
  destruct demo_refreshed_returns as (r & c' & Hrun).
  exists r, c'. split; [exact Hrun|].
  apply (@full_refresh_stamps_what_it_returns demo_platform demo_client
           (in_order (accounts demo_client)) r c').
  - discriminate.
  - exact Hrun.
Defined.

Lemma full_refresh_merges_equal_names_witness :
  ∃ r c',
    demo_refreshed = Some (r, c')
    ∧ (size r ≤ length (accounts demo_client))%nat
    ∧ (size r = length (accounts demo_client) ↔ NoDup (name <$> accounts demo_client)).
Proof.
  destruct demo_refreshed_returns as (r & c' & Hrun).
  exists r, c'. split; [exact Hrun|].
  exact (@full_refresh_merges_equal_names demo_platform demo_client
           (in_order (accounts demo_client)) r c' Hrun).
Defined.

(** * Further properties of the scheduler *)

Section FurtherScheduler.
Context `{Platform}.

(** X11.  A stop requested while the loop thread waits takes effect at
    the next poll: that move leaves the wait and the one after leaves
    the loop, with no further sleep, no signal and no refresh, even
    when a single-account request is pending; after that the thread
    makes no move. *)
Theorem stop_ends_the_loop_at_the_next_poll
    (t : Thread) (remaining : nat) (sched1 sched2 sched3 : list Action) :
  loc t = Waiting remaining →
  let exited := mkThread Exited false (target_account t) (cf_client t)
                         (signals t) (sleeps t) in
  ∃ t1, run sched1 (stop t) = Some t1
        ∧ run sched2 t1 = Some exited
        ∧ run sched3 exited = None.
Proof.
  intros Hloc exited.
  exists (mkThread LoopHead false (target_account t) (cf_client t) (signals t) (sleeps t)).
  split; [|by split].
  unfold run, stop. simpl. rewrite Hloc. by destruct remaining.
Qed.

Lemma moves_waiting (k : nat) (t : Thread) :
  loc t = Waiting k → is_running t = true → pending_target t = None →
  moves (S k) t
  = Some (mkThread LoopHead true (target_account t) (cf_client t) (signals t)
                   (sleeps t + k)).
Proof.
  revert t. induction k as [|k IH]; intros t Hloc Hrun Htarget.
  - simpl. unfold run. rewrite Hloc, Hrun. simpl. by rewrite Nat.add_0_r.
  - change (moves (S (S k)) t) with
      (match run [] t with Some t' => moves (S k) t' | None => None end).
    unfold run. rewrite Hloc, Hrun, Htarget. simpl negb.
    rewrite bool_decide_eq_false_2 by (by intros [? ?]). cbn [orb].
    rewrite IH by done. simpl. do 2 f_equal. lia.
Qed.

(** X12.  A wait that nothing disturbs, with the thread running and no
    request pending, lasts the refresh interval: from the start of the
    wait over a non-negative interval the thread sleeps exactly twice
    the interval times, half a second each, and is then back at the
    head of the loop with its client and signals untouched. *)
Theorem undisturbed_wait_lasts_the_interval (t : Thread) (interval : Z) :
  loc t = Waiting (polls_of interval) → is_running t = true →
  pending_target t = None → 0 ≤ interval →
  ∃ t', moves (S (polls_of interval)) t = Some t'
        ∧ loc t' = LoopHead
        ∧ Z.of_nat (sleeps t') = Z.of_nat (sleeps t) + 2 * interval
        ∧ cf_client t' = cf_client t ∧ signals t' = signals t.
Proof.
  intros Hloc Hrun Htarget Hinterval.
  eexists. split; [by apply moves_waiting|]. simpl.
  split; [done|]. split; [|done]. unfold polls_of. lia.
Qed.

(** X13.  A request for a name that no registry entry carries is
    serviced like any other: the thread emits a single-account signal
    for the name, carrying the empty dictionary, clears the request and
    starts its wait; nothing is sent and the client is untouched. *)
Theorem unknown_account_request_signals_nothing
    (t : Thread) (X : string) (sched : list Action) :
  loc t = LoopHead → is_running t = true → target_account t = Some X → X ≠ "" →
  (∀ acc, acc ∈ accounts (cf_client t) → name acc ≠ X) →
  run sched t
  = Some (mkThread (Waiting (polls_of (refresh_interval (cf_client t)))) true None
                   (cf_client t) (signals t ++ [SingleUpdateSignal X None]) (sleeps t)).
Proof.
  intros Hloc Hrun Htarget HX Hgone.
  unfold run, pending_target. rewrite Hloc, Hrun, Htarget. simpl.
  apply truthy_true in HX as ->.
  unfold update_single_account, bind, get_accounts.
  rewrite first_where_None; [done|].
  intros acc Hin. apply String.eqb_neq. by apply Hgone.
Qed.

Lemma wait_loop_undisturbed (n : nat) (interval wait_count : Z) (t : Thread) :
  is_running t = true → pending_target t = None →
  2 * interval - wait_count = Z.of_nat n →
  wait_loop n interval wait_count t
  = Some (n, mkThread (loc t) true (target_account t) (cf_client t) (signals t)
                      (sleeps t + n)).
Proof.
  revert wait_count t. induction n as [|n IH]; intros wait_count t Hrun Htarget Hn.
  - assert (wait_round interval wait_count t = None) as Hround.
    { unfold wait_round.
      by destruct (Z.ltb_spec wait_count (2 * interval)); [lia|]. }
    destruct t. simpl in *. rewrite Hround. subst. by rewrite Nat.add_0_r.
  - simpl. unfold wait_round at 1. rewrite Hrun, Htarget.
    destruct (Z.ltb_spec wait_count (2 * interval)); [|lia]. simpl.
    rewrite IH by (done || lia). simpl. do 3 f_equal. lia.
Qed.

(** X14.  The wait of cfpandw.py, undisturbed and over a non-negative
    interval, takes exactly as many half-second sleeps as the wait of
    cf2.py has polls, twice the interval, and leaves the thread
    otherwise as it was; when a request is pending or the thread was
    stopped it is left at once, without a sleep. *)
Theorem both_waits_sleep_equally (t : Thread) (interval : Z) :
  0 ≤ interval →
  (is_running t = true → pending_target t = None →
   wait_loop (polls_of interval) interval 0 t
   = Some (polls_of interval,
           mkThread (loc t) true (target_account t) (cf_client t) (signals t)
                    (sleeps t + polls_of interval)))
  ∧ (is_running t = false ∨ is_Some (pending_target t) →
     ∀ fuel wait_count, wait_loop fuel interval wait_count t = Some (0%nat, t)).
Proof.
  intros Hinterval. split.
  - intros Hrun Htarget. apply wait_loop_undisturbed; [done..|].
    unfold polls_of. lia.
  - intros Hleft fuel wait_count.
    assert (wait_round interval wait_count t = None) as Hround.
    { unfold wait_round. destruct Hleft as [->|Htarget].
      - by rewrite andb_false_r.
      - rewrite bool_decide_eq_true_2 by done. by rewrite andb_false_r. }
    destruct fuel; simpl; by rewrite Hround.
Qed.

End FurtherScheduler.

Lemma stop_ends_the_loop_at_the_next_poll_witness :
  let exited := mkThread Exited false None demo_client [] 20 in
  ∃ t1, @run demo_platform [] (stop demo_thread) = Some t1
        ∧ @run demo_platform [] t1 = Some exited
        ∧ @run demo_platform [] exited = None.
Proof.
  apply (@stop_ends_the_loop_at_the_next_poll demo_platform demo_thread 100 [] [] []).
  reflexivity.
Defined.

Lemma undisturbed_wait_lasts_the_interval_witness :
  ∃ t', @moves demo_platform (S (polls_of 50)) demo_thread = Some t'
        ∧ loc t' = LoopHead
        ∧ Z.of_nat (sleeps t') = Z.of_nat (sleeps demo_thread) + 2 * 50
        ∧ cf_client t' = cf_client demo_thread ∧ signals t' = signals demo_thread.
Proof.
  apply (@undisturbed_wait_lasts_the_interval demo_platform demo_thread 50).
  - reflexivity.
  - reflexivity.
  - reflexivity.
  - lia.
Defined.

Lemma unknown_account_request_signals_nothing_witness :
  @run demo_platform [] demo_thread_unknown
  = Some (mkThread (Waiting (polls_of 60)) true None demo_client
                   [SingleUpdateSignal "Z" None] 20).
Proof.
  apply (@unknown_account_request_signals_nothing demo_platform demo_thread_unknown "Z" []).
  - reflexivity.
  - reflexivity.
  - reflexivity.
  - discriminate.
  - intros acc Hin. unfold demo_thread_unknown, demo_client in Hin. simpl in Hin.
    decompose_list_elem_of; discriminate.
Defined.

Lemma both_waits_sleep_equally_witness :
  (is_running demo_thread = true → pending_target demo_thread = None →
   wait_loop (polls_of 50) 50 0 demo_thread
   = Some (polls_of 50,
           mkThread (loc demo_thread) true (target_account demo_thread)
                    (cf_client demo_thread) (signals demo_thread)
                    (sleeps demo_thread + polls_of 50)))
  ∧ (is_running demo_thread = false ∨ is_Some (pending_target demo_thread) →
     ∀ fuel wait_count, wait_loop fuel 50 wait_count demo_thread = Some (0%nat, demo_thread)).
Proof.
  apply (both_waits_sleep_equally demo_thread 50). lia.
Defined.

(** * Further properties of the persistence (cf2.py) *)

Section FurtherPersistence.
Import Persistence.

Lemma has_name_elem_of (n : string) (tbl : list Row) :
  n ∈ r_name <$> tbl → has_name n tbl = true.
Proof.
  induction tbl as [|r tbl IH]; csimpl; intros Hin; [by apply elem_of_nil in Hin|].
  apply elem_of_cons in Hin as [->|Hin].
  - by rewrite String.eqb_refl.
  - rewrite IH by done. apply orb_true_r.
Qed.

Lemma insert_rows_app (rows1 rows2 tbl : list Row) :
  NoDup (r_name <$> rows1) →
  (∀ r, r ∈ rows1 → has_name (r_name r) tbl = false) →
  insert_rows (rows1 ++ rows2) tbl = insert_rows rows2 (tbl ++ rows1).
Proof.
  revert tbl. induction rows1 as [|r rows1 IH]; intros tbl Hnodup Hfresh; simpl.
  - by rewrite app_nil_r.
  - rewrite fmap_cons in Hnodup. apply NoDup_cons in Hnodup as [Hr Hnodup].
    rewrite Hfresh by apply list_elem_of_here.
    rewrite IH; [by rewrite <- app_assoc|done|].
    intros r' Hr'. rewrite has_name_app, Hfresh by by apply list_elem_of_further.
    simpl. apply String.eqb_neq. intros Heq. apply Hr. rewrite Heq.
    by apply list_elem_of_fmap_2.
Qed.

(** Reading a database that holds the settings of [cfg] and the rows of
    the accounts [l]. *)
Lemma run_statements_rows (cfg cfg0 : Config) (l : list Account) :
  run_statements (db_statements (mkDatabase (config_rows cfg) (row_of_account <$> l))) cfg0
  = (mkConfig l (cfg_proxy cfg) (cfg_refresh_interval cfg) (cfg_request_limit cfg), true).
Proof.
  exact (run_statements_saved
           (mkConfig l (cfg_proxy cfg) (cfg_refresh_interval cfg) (cfg_request_limit cfg))
           cfg0).
Qed.

(** X15.  Saving a configuration in which a name is used a second time
    stores the settings and only the accounts before the repeated one:
    the insert stops at the integrity error, the accounts from there on
    are not stored and the mirror is not written.  Loading afterwards
    yields the shortened account list. *)
Theorem save_stops_at_a_repeated_name
    (cfg cfg0 : Config) (written : bool) (st : Storage)
    (before after : list Account) (again : Account) :
  is_Some (db st) →
  cfg_accounts cfg = (before ++ again :: after)%list →
  NoDup (name <$> before) →
  name again ∈ name <$> before →
  save_config cfg written st
  = mkStorage (Some (mkDatabase (config_rows cfg) (row_of_account <$> before)))
              (json_file st)
  ∧ (load_config cfg0 (save_config cfg written st)).1
    = mkConfig before (cfg_proxy cfg) (cfg_refresh_interval cfg) (cfg_request_limit cfg).
Proof.
  intros [d Hdb] Hacc Hnodup Hagain.
  assert (save_config cfg written st
          = mkStorage (Some (mkDatabase (config_rows cfg) (row_of_account <$> before)))
                      (json_file st)) as Hsave.
  { unfold save_config. rewrite Hdb, Hacc, fmap_app, fmap_cons.
    rewrite insert_rows_app; [|by rewrite row_names|done].
    simpl. rewrite has_name_elem_of; [done|]. by rewrite row_names. }
  split; [done|]. rewrite Hsave.
  unfold load_config. simpl. rewrite run_statements_rows. simpl.
  rewrite bool_decide_eq_false_2; [done|].
  intros ->. by apply elem_of_nil in Hagain.
Qed.

(** X16.  A save replaces the whole database: what an earlier save left
    there has no influence on what the next one leaves, and saving the
    same configuration twice gives the store that saving it once
    gives. *)
Theorem save_replaces_the_database
    (cfg cfg' : Config) (written written' : bool) (st : Storage) :
  db (save_config cfg written (save_config cfg' written' st))
  = db (save_config cfg written st)
  ∧ save_config cfg written (save_config cfg written st) = save_config cfg written st.
Proof.
  unfold save_config, write_mirror.
  destruct (db st) as [d|] eqn:Hdb.
  - destruct (insert_rows (row_of_account <$> cfg_accounts cfg) []) as [tbl|tbl] eqn:Hins;
      destruct (insert_rows (row_of_account <$> cfg_accounts cfg') []) as [tbl'|tbl'];
      destruct written, written'; simpl; by rewrite ?Hins.
  - destruct written, written'; simpl; by rewrite ?Hdb.
Qed.

Lemma filter_other_names (r : Row) (tbl : list Row) :
  has_name (r_name r) tbl = false →
  filter (λ r', r_name r' ≠ r_name r) tbl = tbl.
Proof.
  induction tbl as [|r' tbl IH]; [done|]. simpl. intros Hname.
  apply orb_false_elim in Hname as [Hr' Htbl].
  rewrite filter_cons_True by by apply String.eqb_neq.
  by rewrite IH.
Qed.

Lemma migrate_rows_distinct (l : list Account) (tbl : list Row) :
  NoDup (name <$> l) →
  (∀ a, a ∈ l → has_name (name a) tbl = false) →
  foldl (λ tbl acc, insert_or_replace (row_of_account acc) tbl) tbl l
  = (tbl ++ (row_of_account <$> l))%list.
Proof.
  revert tbl. induction l as [|a l IH]; intros tbl Hnodup Hfresh; csimpl.
  - by rewrite app_nil_r.
  - rewrite fmap_cons in Hnodup. apply NoDup_cons in Hnodup as [Ha Hnodup].
    unfold insert_or_replace at 2.
    rewrite filter_other_names by (apply Hfresh, list_elem_of_here).
    rewrite IH; [by rewrite <- app_assoc|done|].
    intros a' Ha'. rewrite has_name_app, Hfresh by by apply list_elem_of_further.
    simpl. apply String.eqb_neq. intros Heq. apply Ha. rewrite Heq.
    by apply list_elem_of_fmap_2.
Qed.

(** X17.  When the database yields no account and the mirror holds a
    document with a non-empty account list of pairwise distinct names,
    loading takes every key of the document over what the database
    gave and writes the result back into the database; from then on a
    load returns that configuration whatever becomes of the mirror. *)
Theorem load_restores_from_the_mirror
    (cfg0 cfg1 : Config) (st : Storage) (d : Database) (doc : JsonDoc) (l : list Account) :
  db st = Some d →
  run_statements (db_statements d) cfg0 = (cfg1, true) →
  cfg_accounts cfg1 = [] →
  json_file st = Doc doc →
  doc_accounts doc = Some l → l ≠ [] → NoDup (name <$> l) →
  let loaded := load_config cfg0 st in
  loaded.1 = update_from_doc doc cfg1
  ∧ cfg_accounts loaded.1 = l
  ∧ db loaded.2 = Some (mkDatabase (config_rows loaded.1) (row_of_account <$> l))
  ∧ ∀ cfg2 file, (load_config cfg2 (mkStorage (db loaded.2) file)).1 = loaded.1.
Proof.
  intros Hdb Hstmts Hempty Hfile Hdoc Hne Hnodup loaded.
  assert (loaded = (update_from_doc doc cfg1, migrate_to_db (update_from_doc doc cfg1) st))
    as Hloaded.
  { subst loaded. unfold load_config. rewrite Hdb, Hstmts, Hempty, Hfile.
    by rewrite bool_decide_eq_true_2. }
  assert (cfg_accounts (update_from_doc doc cfg1) = l) as Hacc.
  { unfold update_from_doc. simpl. by rewrite Hdoc. }
  assert (db (migrate_to_db (update_from_doc doc cfg1) st)
          = Some (mkDatabase (config_rows (update_from_doc doc cfg1))
                             (row_of_account <$> l))) as Hmig.
  { unfold migrate_to_db. rewrite Hdb, Hacc. cbn [db].
    by rewrite (migrate_rows_distinct l []). }
  rewrite Hloaded. simpl. split; [done|]. split; [done|]. split; [done|].
  intros cfg2 file. rewrite Hmig. unfold load_config. simpl.
  rewrite run_statements_rows. simpl.
  rewrite bool_decide_eq_false_2 by done.
  simpl. unfold update_from_doc. by rewrite Hdoc.
Qed.

(** X18.  A refresh interval cell whose text, of ASCII characters, is
    not one that [int] reads stops the reading of the database: the
    proxy settings read before it stay, the request limit and the
    stored accounts are not read at all, and without a mirror the load
    ends with the accounts and numbers the dictionary in memory already
    had.  A text with blanks around the number, a leading plus sign or
    underscores between digits is read and does not stop it. *)
Theorem load_stops_at_a_damaged_cell
    (cfg0 : Config) (st : Storage) (d : Database) (p : ProxyConfig) (s : string) :
  db st = Some d →
  config_table d !! "proxy" = Some (CJson p) →
  config_table d !! "refresh_interval" = Some (CText s) →
  ascii_text s = true →
  int_of_str s = None →
  json_file st = NoFile →
  load_config cfg0 st
  = (mkConfig (cfg_accounts cfg0) p (cfg_refresh_interval cfg0) (cfg_request_limit cfg0),
     st).
Proof.
  intros Hdb Hproxy Hinterval _ Hint Hfile.
  unfold load_config. rewrite Hdb. unfold db_statements.
  rewrite bool_decide_eq_false_2.
  - simpl. unfold read_proxy. rewrite Hproxy. simpl.
    unfold read_refresh_interval. rewrite Hinterval. simpl. rewrite Hint. simpl.
    unfold load_backup. by rewrite Hfile.
  - intros Hempty. by rewrite Hempty, lookup_empty in Hproxy.
Qed.

End FurtherPersistence.

Lemma save_stops_at_a_repeated_name_witness :
  Persistence.save_config demo_config_repeated true stale_storage
  = Persistence.mkStorage
      (Some (Persistence.mkDatabase (Persistence.config_rows demo_config_repeated)
               (Persistence.row_of_account <$> [acct_a; acct_b])))
      (Persistence.json_file stale_storage)
  ∧ (Persistence.load_config Persistence.default_config
       (Persistence.save_config demo_config_repeated true stale_storage)).1
    = Persistence.mkConfig [acct_a; acct_b] demo_proxy 60 1000.
Proof.
  apply (save_stops_at_a_repeated_name demo_config_repeated Persistence.default_config
           true stale_storage [acct_a; acct_b] [] (mkAccount "A" "" "" "tok-2" "" "" "")).
  - by eexists.
  - reflexivity.
  - simpl. apply NoDup_cons. split.
    + intros Hin. decompose_list_elem_of; discriminate.
    + apply NoDup_singleton.
  - simpl. apply list_elem_of_here.
Defined.

Lemma load_restores_from_the_mirror_witness :
  let loaded := Persistence.load_config Persistence.default_config legacy_storage in
  loaded.1
  = Persistence.update_from_doc demo_mirror Persistence.default_config
  ∧ Persistence.cfg_accounts loaded.1 = [acct_a; acct_b]
  ∧ Persistence.db loaded.2
    = Some (Persistence.mkDatabase (Persistence.config_rows loaded.1)
              (Persistence.row_of_account <$> [acct_a; acct_b]))
  ∧ ∀ cfg2 file,
      (Persistence.load_config cfg2
         (Persistence.mkStorage (Persistence.db loaded.2) file)).1 = loaded.1.
Proof.
  apply (load_restores_from_the_mirror Persistence.default_config
           Persistence.default_config legacy_storage empty_database demo_mirror
           [acct_a; acct_b]).
  - reflexivity.
  - reflexivity.
  - reflexivity.
  - reflexivity.
  - reflexivity.
  - discriminate.
  - simpl. apply NoDup_cons. split.
    + intros Hin. decompose_list_elem_of; discriminate.
    + apply NoDup_singleton.
Defined.

Lemma load_stops_at_a_damaged_cell_witness :
  Persistence.load_config Persistence.default_config
    (Persistence.mkStorage (Some damaged_database) Persistence.NoFile)
  = (Persistence.mkConfig [] (mkProxy true "http" "10.0.0.1" "8080" "" "") 300
       DEFAULT_REQUEST_LIMIT,
     Persistence.mkStorage (Some damaged_database) Persistence.NoFile).
Proof.
  apply (load_stops_at_a_damaged_cell Persistence.default_config
           (Persistence.mkStorage (Some damaged_database) Persistence.NoFile)
           damaged_database (mkProxy true "http" "10.0.0.1" "8080" "" "") "soon").
  - reflexivity.
  - reflexivity.
  - reflexivity.
  - reflexivity.
  - reflexivity.
  - reflexivity.
Defined.

(** * Further properties of the registry *)

Section FurtherRegistry.
Context `{Platform}.

(** X19.  Editing the account in slot [index] stores the new fields
    with the cached identifier and the cache timestamp of the entry
    that was there, leaves every other slot and the length of the
    registry as they were, and schedules one save. *)
Theorem update_account_keeps_the_cache
    (index : nat) (account_info old_info : Account) (c : Client) :
  accounts c !! index = Some old_info →
  let c' := (update_account index account_info c).2 in
  accounts c' !! index
  = Some (set_cache (account_id_cache old_info) (cache_update_time old_info) account_info)
  ∧ (∀ j, j ≠ index → accounts c' !! j = accounts c !! j)
  ∧ length (accounts c') = length (accounts c)
  ∧ log c' = (log c ++ [EvSaveConfig])%list.
Proof.
  intros Hold c'. subst c'.
  unfold update_account, bind, get_client. rewrite Hold. simpl.
  split; [|split; [|split]].
  - apply list_lookup_insert_eq. by eapply lookup_lt_Some.
  - intros j Hj. by apply list_lookup_insert_ne.
  - apply length_insert.
  - done.
Qed.

Lemma alter_past_end {A} (f : A → A) (i : nat) (l : list A) :
  (length l ≤ i)%nat → alter f i l = l.
Proof.
  revert i. induction l as [|x l IH]; intros [|i] Hlen; simpl in *; [done|done|lia|].
  f_equal. apply IH. lia.
Qed.

(** X20.  An index past the end of the registry changes no account:
    [update_account] and [delete_account] leave the client untouched
    and schedule no save, while [update_account_cache] leaves the
    registry as it is and schedules a save all the same. *)
Theorem stale_index_changes_no_account
    (index : nat) (account_info : Account) (id : string) (c : Client) :
  (length (accounts c) ≤ index)%nat →
  update_account index account_info c = (inr tt, c)
  ∧ delete_account index c = (inr tt, c)
  ∧ update_account_cache index id c = (inr tt, emit EvSaveConfig c).
Proof.
  intros Hlen. split; [|split].
  - unfold update_account, bind, get_client.
    by rewrite lookup_ge_None_2.
  - unfold delete_account, bind, get_client.
    rewrite bool_decide_eq_false_2; [done|lia].
  - unfold update_account_cache, bind, get_client, modify_client, save_config_effect.
    simpl. rewrite alter_past_end by done. by destruct c.
Qed.

Lemma first_where_by_name (accs : list Account) (a : Account) :
  NoDup (name <$> accs) → a ∈ accs →
  first_where (λ account, String.eqb (name account) (name a)) accs = Some a.
Proof.
  induction accs as [|b accs IH]; intros Hnodup Hin; [by apply elem_of_nil in Hin|].
  rewrite fmap_cons in Hnodup. apply NoDup_cons in Hnodup as [Hb Hnodup]. simpl.
  apply elem_of_cons in Hin as [->|Hin].
  - by rewrite String.eqb_refl.
  - destruct (String.eqb_spec (name b) (name a)) as [Heq|Hne]; [|by apply IH].
    destruct Hb. rewrite Heq. by apply list_elem_of_fmap_2.
Qed.

Lemma omap_by_name (accs l : list Account) :
  NoDup (name <$> accs) → l ⊆ accs →
  omap (λ account_name,
          first_where (λ account, String.eqb (name account) account_name) accs)
       (name <$> l) = l.
Proof.
  intros Hnodup. induction l as [|a l IH]; intros Hsub; [done|]. csimpl.
  rewrite first_where_by_name; [|done|apply Hsub, list_elem_of_here]. simpl.
  rewrite IH; [done|]. intros x Hx. apply Hsub. by apply list_elem_of_further.
Qed.

Lemma names_omap_by_name (accs : list Account) (items : list string) :
  (∀ n, n ∈ items → n ∈ name <$> accs) →
  name <$> omap (λ account_name,
                   first_where (λ account, String.eqb (name account) account_name) accs)
                items = items.
Proof.
  induction items as [|n items IH]; intros Hin; [done|]. csimpl.
  destruct (list_elem_of_fmap_1 name accs n) as (a & -> & Ha);
    [apply Hin, list_elem_of_here|].
  destruct (first_where_is_Some (λ account, String.eqb (name account) (name a)) accs a)
    as [b Hb]; [done|apply String.eqb_refl|].
  rewrite Hb. csimpl. apply first_where_Some in Hb as [_ Hb].
  apply String.eqb_eq in Hb. rewrite Hb, IH; [done|].
  intros m Hm. apply Hin. by apply list_elem_of_further.
Qed.

(** X21.  When the names in the registry are pairwise distinct and the
    list widget shows exactly these names in some order, the handler of
    a drag leaves a registry that holds the same accounts, none lost
    and none doubled, in the order the widget shows. *)
Theorem reordering_keeps_every_account (items : list string) (c : Client) :
  NoDup (name <$> accounts c) →
  items ≡ₚ name <$> accounts c →
  let c' := (on_accounts_order_changed items c).2 in
  name <$> accounts c' = items ∧ accounts c' ≡ₚ accounts c.
Proof.
  intros Hnodup Hperm c'.
  set (lookup_name := λ account_name,
         first_where (λ account, String.eqb (name account) account_name) (accounts c)).
  assert (name <$> omap lookup_name items = items) as Hnames.
  { apply names_omap_by_name. intros n Hn. by rewrite <- Hperm. }
  assert (omap lookup_name items ≡ₚ accounts c) as Hsame.
  { rewrite Hperm. subst lookup_name. by rewrite omap_by_name. }
  subst c'. unfold on_accounts_order_changed, bind, get_accounts.
  fold lookup_name. case_bool_decide as Hempty; simpl.
  - rewrite Hempty in Hnames, Hsame. split; [|done].
    apply Permutation_nil_l in Hsame. rewrite <- Hsame. by rewrite <- Hnames.
  - done.
Qed.

End FurtherRegistry.

Lemma update_account_keeps_the_cache_witness :
  let c' := (update_account 0 acct_both demo_client_cached).2 in
  accounts c' !! 0%nat = Some (mkAccount "C" "c@example.org" "key-c" "tok-c" "" "id-7" demo_stamp)
  ∧ (∀ j, j ≠ 0%nat → accounts c' !! j = accounts demo_client_cached !! j)
  ∧ length (accounts c') = length (accounts demo_client_cached)
  ∧ log c' = (log demo_client_cached ++ [EvSaveConfig])%list.
Proof.
  apply (update_account_keeps_the_cache 0 acct_both acct_cached demo_client_cached).
  reflexivity.
Defined.

Lemma stale_index_changes_no_account_witness :
  update_account 2 acct_both demo_client = (inr tt, demo_client)
  ∧ delete_account 2 demo_client = (inr tt, demo_client)
  ∧ @update_account_cache demo_platform 2 "id-9" demo_client
    = (inr tt, emit EvSaveConfig demo_client).
Proof.
  apply (@stale_index_changes_no_account demo_platform 2 acct_both "id-9" demo_client).
  simpl. lia.
Defined.

Lemma reordering_keeps_every_account_witness :
  let c' := (on_accounts_order_changed demo_items demo_client).2 in
  name <$> accounts c' = demo_items ∧ accounts c' ≡ₚ accounts demo_client.
Proof.
  apply (reordering_keeps_every_account demo_items demo_client).
  - simpl. apply NoDup_cons. split.
    + intros Hin. decompose_list_elem_of; discriminate.
    + apply NoDup_singleton.
  - simpl. unfold demo_items. apply Permutation_swap.
Defined.

(** * Further properties of the chart and of the JSON configuration *)

Section FurtherChart.
Import Chart.

Lemma update_data_well_kept (d : option UsageData) (limit now : Z) (w : SingleChartWidget) :
  well_kept w → well_kept (update_data d limit now w)
                ∧ max_history (update_data d limit now w) = max_history w.
Proof.
  intros [Hlen Hadj]. unfold update_data.
  destruct (shows_nothing d); [by split|].
  case_bool_decide as Hnew; [|by split].
  assert (∀ i p q, (history w ++ [(now, requests_of d)])%list !! i = Some p →
                   (history w ++ [(now, requests_of d)])%list !! S i = Some q →
                   p.2 ≠ q.2) as Happ.
  { intros i p q Hp Hq.
    destruct (decide (S i < length (history w))%nat) as [Hin|Hout].
    - rewrite lookup_app_l in Hp by lia. rewrite lookup_app_l in Hq by lia.
      by eapply Hadj.
    - assert (S i = length (history w)) as Hi.
      { apply lookup_lt_Some in Hq. rewrite length_app in Hq. simpl in Hq. lia. }
      rewrite lookup_app_l in Hp by lia.
      rewrite Hi, lookup_app_r in Hq by lia.
      rewrite Nat.sub_diag in Hq. simpl in Hq. simplify_eq. simpl.
      rewrite last_lookup in Hnew.
      replace (pred (length (history w))) with i in Hnew by lia.
      rewrite Hp in Hnew. destruct p as [time requests]. simpl. congruence. }
  split; [|done]. split; simpl.
  - case_bool_decide as Hfull.
    + rewrite length_drop, length_app. simpl. lia.
    + lia.
  - case_bool_decide as Hfull; [|done].
    intros i p q Hp Hq. rewrite lookup_drop in Hp, Hq. by eapply Happ.
Qed.

(** X22.  However the widget is updated after its creation, its history
    never holds more than 20 points and no two neighbouring points
    carry the same request count. *)
Theorem history_stays_short_and_changing (calls : list (option UsageData * Z * Z)) :
  (length (history (updates calls init)) ≤ 20)%nat
  ∧ ∀ i p q, history (updates calls init) !! i = Some p →
             history (updates calls init) !! S i = Some q → p.2 ≠ q.2.
Proof.
  assert (∀ w, well_kept w → max_history w = 20%nat →
               well_kept (updates calls w) ∧ max_history (updates calls w) = 20%nat)
    as Hall.
  { unfold updates. induction calls as [|call calls IH]; intros w Hw Hmax; [done|].
    simpl. destruct (update_data_well_kept call.1.1 call.1.2 call.2 w Hw) as [Hw' Hmax'].
    apply IH; [done|congruence]. }
  destruct (Hall init) as [[Hlen Hadj] Hmax]; [|done|].
  - split; [simpl; lia|]. by intros i p q Hp.
  - split; [by rewrite Hmax in Hlen|done].
Qed.

End FurtherChart.

Section FurtherJsonStore.
Import JsonStore.

Lemma upgrade_store_account (a : Account) : upgrade_account (store_account a) = a.
Proof. by destruct a. Qed.

(** X23.  With the single JSON file of cfpandw.py, a save that is
    written through followed by a load gives back the configuration in
    every field and in the same account order, whatever the names,
    repeated ones included, and whatever was in memory before; after a
    save whose dump failed the file does not parse and a load leaves
    the dictionary in memory as it is. *)
Theorem json_file_round_trip (cfg cfg0 : Persistence.Config) (file : File) :
  load_config cfg0 (save_config cfg WriteOk file) = cfg
  ∧ load_config cfg0 (save_config cfg DumpFailed file) = cfg0.
Proof.
  split; [|done]. unfold load_config, save_config, doc_of_config. simpl.
  rewrite <- list_fmap_compose.
  rewrite (list_fmap_ext (upgrade_account ∘ store_account) id (Persistence.cfg_accounts cfg))
    by (intros; apply upgrade_store_account).
  rewrite list_fmap_id. by destruct cfg.
Qed.

End FurtherJsonStore.
